(** * FlowchartBuilder: the graph editor's handlers and their history laws

    A shallow embedding of [src/FlowchartBuilder.js].  The component is a
    React function component: every render runs the function body again
    and creates fresh handler closures over that render's values of the
    state hooks.  A handler therefore sees two things, which the model
    keeps apart:

    - [env : Render], the values of [nodes], [edges], [history], ... that
      the closure captured when its render ran (what a plain identifier
      such as [nodes] or [transform.k] denotes inside the handler);
    - [w : World], the live store: the current values of the state hooks
      (what an updater [setNodes(n => ...)] receives as [n]), the
      [useRef] cells, the id counter and the listeners on [window].

    Handlers passed as props are the ones of the latest render, so they
    run with [env = st w].  The listeners that [handleNodeMouseDown]
    registers on [window] keep the render they were created in.

    Numbers are exact rationals; [JSON.parse(JSON.stringify v)] of the
    immutable values used here is [v]. *)

From Stdlib Require Import QArith Lqa Lia List String Bool Arith DecimalString
  DecimalNat.
Import ListNotations.
Open Scope Q_scope.

(** ** Data model *)

Record Position := mkPosition { pos_x : Q; pos_y : Q }.

Record NodeData := mkData { label : string }.

Record Node := mkNode {
  n_id : string;
  n_type : string;
  n_position : Position;
  n_data : NodeData
}.

Record Edge := mkEdge { e_from : string; e_to : string; e_id : string }.

(** An entry of [history] or [future]: [{ nodes, edges }]. *)
Record Snapshot := mkSnapshot { s_nodes : list Node; s_edges : list Edge }.

Record Transform := mkTransform { t_x : Q; t_y : Q; t_k : Q }.

(** The values of the [useState] hooks as one render sees them. *)
Record Render := mkRender {
  nodes : list Node;
  edges : list Edge;
  selectedNode : option string;
  editingNode : option Node;
  connecting : option string;
  history : list Snapshot;
  future : list Snapshot;
  transform : Transform
}.

(** [panStart.current]; [origX]/[origY] are absent until the first pan. *)
Record PanStart := mkPanStart {
  ps_x : Q; ps_y : Q; ps_origX : Q; ps_origY : Q
}.

Record World := mkWorld {
  st : Render;                     (* current values of the state hooks *)
  draggingNode : option string;    (* draggingNode.current *)
  dragStartOffset : Position;      (* dragStartOffset.current *)
  panning : bool;                  (* panning.current *)
  panStart : PanStart;             (* panStart.current *)
  idCounter : nat;                 (* the [id] captured by generateId *)
  dragListeners : list Render      (* renders whose handleNodeDrag and
                                      handleNodeMouseUp are on window *)
}.

(** Pointer and keyboard events, with the DOM facts the handlers read. *)
Record MouseEvent := mkMouse { clientX : Q; clientY : Q; button : Z }.
Record DOMRect := mkRect { left : Q; top : Q }.
Record KeyboardEvent := mkKey { ctrlKey : bool; key : string }.

(** ** JavaScript primitives *)

(** Truthiness of a value that is [null] or a string. *)
Definition truthy (v : option string) : bool :=
  match v with
  | None => false
  | Some s => negb (String.eqb s EmptyString)
  end.

(** [a === b] (and [b === a]) where [a] is [null] or a string and [b] a
    string. *)
Definition strict_eq (a : option string) (b : string) : bool :=
  match a with
  | None => false
  | Some s => String.eqb s b
  end.

Definition Qlt_bool (a b : Q) : bool := negb (Qle_bool b a).

Definition Math_max (a b : Q) : Q := if Qle_bool a b then b else a.
Definition Math_min (a b : Q) : Q := if Qle_bool a b then a else b.

(** [nodes.find(n => n.id === id)] *)
Definition findNode (id : string) (ns : list Node) : option Node :=
  find (fun n => String.eqb (n_id n) id) ns.

Definition deepCopy {A : Type} (v : A) : A := v.

(** [h.slice(0, h.length - 1)] and [f.slice(1)] *)
Definition slice_init {A : Type} (h : list A) : list A :=
  firstn (List.length h - 1) h.
Definition slice_1 {A : Type} (f : list A) : list A := skipn 1 f.

Definition NODE_SIZE_width : Q := 130.
Definition NODE_SIZE_height : Q := 55.

(** [generateId]: [`node-${id++}`] on the module-level counter. *)
Definition generateId (c : nat) : string * nat :=
  (("node-" ++ NilEmpty.string_of_uint (Nat.to_uint c))%string, S c).

Definition getRelativeCoords (e : MouseEvent) (svgRect : DOMRect) : Position :=
  {| pos_x := clientX e - left svgRect; pos_y := clientY e - top svgRect |}.

Definition getNodeCenter (node : Node) : Position :=
  {| pos_x := pos_x (n_position node) + NODE_SIZE_width / 2;
     pos_y := pos_y (n_position node) + NODE_SIZE_height / 2 |}.

(** ** State setters

    [setX f] is the updater form [setX(prev => f prev)]; the value form
    [setX(v)] is [setX (fun _ => v)].  Updates queued by one handler are
    applied per hook in order, which is what applying them to the store
    one after the other does. *)

Definition withSt (f : Render -> Render) (w : World) : World :=
  match w with
  | mkWorld r dn off pn ps c ls => mkWorld (f r) dn off pn ps c ls
  end.

Definition setNodes (f : list Node -> list Node) : World -> World :=
  withSt (fun r =>
    match r with
    | mkRender ns es sel ed cn h fu tr => mkRender (f ns) es sel ed cn h fu tr
    end).

Definition setEdges (f : list Edge -> list Edge) : World -> World :=
  withSt (fun r =>
    match r with
    | mkRender ns es sel ed cn h fu tr => mkRender ns (f es) sel ed cn h fu tr
    end).

Definition setSelectedNode (v : option string) : World -> World :=
  withSt (fun r =>
    match r with
    | mkRender ns es sel ed cn h fu tr => mkRender ns es v ed cn h fu tr
    end).

Definition setEditingNode (v : option Node) : World -> World :=
  withSt (fun r =>
    match r with
    | mkRender ns es sel ed cn h fu tr => mkRender ns es sel v cn h fu tr
    end).

Definition setConnecting (v : option string) : World -> World :=
  withSt (fun r =>
    match r with
    | mkRender ns es sel ed cn h fu tr => mkRender ns es sel ed v h fu tr
    end).

Definition setHistory (f : list Snapshot -> list Snapshot) : World -> World :=
  withSt (fun r =>
    match r with
    | mkRender ns es sel ed cn h fu tr => mkRender ns es sel ed cn (f h) fu tr
    end).

Definition setFuture (f : list Snapshot -> list Snapshot) : World -> World :=
  withSt (fun r =>
    match r with
    | mkRender ns es sel ed cn h fu tr => mkRender ns es sel ed cn h (f fu) tr
    end).

Definition setTransform (f : Transform -> Transform) : World -> World :=
  withSt (fun r =>
    match r with
    | mkRender ns es sel ed cn h fu tr => mkRender ns es sel ed cn h fu (f tr)
    end).

(** Writes to the [useRef] cells, the id counter and the window listeners. *)
Definition setDraggingNode (v : option string) (w : World) : World :=
  match w with
  | mkWorld r dn off pn ps c ls => mkWorld r v off pn ps c ls
  end.

Definition setDragStartOffset (v : Position) (w : World) : World :=
  match w with
  | mkWorld r dn off pn ps c ls => mkWorld r dn v pn ps c ls
  end.

Definition setPanning (v : bool) (w : World) : World :=
  match w with
  | mkWorld r dn off pn ps c ls => mkWorld r dn off v ps c ls
  end.

Definition setPanStart (v : PanStart) (w : World) : World :=
  match w with
  | mkWorld r dn off pn ps c ls => mkWorld r dn off pn v c ls
  end.

Definition setIdCounter (v : nat) (w : World) : World :=
  match w with
  | mkWorld r dn off pn ps c ls => mkWorld r dn off pn ps v ls
  end.

Definition setDragListeners (v : list Render) (w : World) : World :=
  match w with
  | mkWorld r dn off pn ps c ls => mkWorld r dn off pn ps c v
  end.

(** Leibniz equality of renders is decidable; it stands for the identity
    of the two listener functions a render creates (two renders with the
    same values are not told apart). *)
Definition Q_eq_dec (a b : Q) : {a = b} + {a <> b}.
Proof. decide equality; [apply Pos.eq_dec | apply Z.eq_dec]. Defined.

Definition Position_eq_dec (a b : Position) : {a = b} + {a <> b}.
Proof. decide equality; apply Q_eq_dec. Defined.

Definition Node_eq_dec (a b : Node) : {a = b} + {a <> b}.
Proof.
  decide equality; try apply string_dec; try apply Position_eq_dec.
  decide equality; apply string_dec.
Defined.

Definition Edge_eq_dec (a b : Edge) : {a = b} + {a <> b}.
Proof. decide equality; apply string_dec. Defined.

Definition Snapshot_eq_dec (a b : Snapshot) : {a = b} + {a <> b}.
Proof.
  decide equality; apply list_eq_dec; [apply Edge_eq_dec | apply Node_eq_dec].
Defined.

Definition Render_eq_dec (a b : Render) : {a = b} + {a <> b}.
Proof.
  decide equality;
    try (apply list_eq_dec; first [apply Snapshot_eq_dec | apply Edge_eq_dec
                                  | apply Node_eq_dec]).
  - decide equality; apply Q_eq_dec.
  - decide equality; apply string_dec.
  - decide equality; apply Node_eq_dec.
  - decide equality; apply string_dec.
Defined.

(** [window.addEventListener]: registering a listener that is already
    registered does nothing.  Two renders with the same values count as
    one here, whereas the browser keeps their closures apart; the
    statements below that depend on the listeners start from an empty
    list or from renders with different values. *)
Definition addListener (env : Render) (ls : list Render) : list Render :=
  if in_dec Render_eq_dec env ls then ls else ls ++ [env].

(** [window.removeEventListener] *)
Definition removeListener (env : Render) (ls : list Render) : list Render :=
  remove Render_eq_dec env ls.

(** ** Handlers of [FlowchartBuilder] *)

(** Add current state to undo history and clear future. *)
Definition pushHistory (env : Render) (w : World) : World :=
  let w := setHistory (fun h =>
             h ++ [ {| s_nodes := deepCopy (nodes env);
                       s_edges := deepCopy (edges env) |} ]) w in
  setFuture (fun _ => []) w.

Definition handleUndo (env : Render) (w : World) : World :=
  if (List.length (history env) =? 0)%nat then w else
  match nth_error (history env) (List.length (history env) - 1) with
  | None => w (* not reached: the index is in range *)
  | Some prev =>
      let w := setFuture (fun f =>
                 {| s_nodes := nodes env; s_edges := edges env |} :: f) w in
      let w := setNodes (fun _ => s_nodes prev) w in
      let w := setEdges (fun _ => s_edges prev) w in
      let w := setHistory (fun h => slice_init h) w in
      setSelectedNode None w
  end.

Definition handleRedo (env : Render) (w : World) : World :=
  if (List.length (future env) =? 0)%nat then w else
  match nth_error (future env) 0 with
  | None => w (* not reached *)
  | Some next =>
      let w := setHistory (fun h =>
                 h ++ [ {| s_nodes := nodes env; s_edges := edges env |} ]) w in
      let w := setNodes (fun _ => s_nodes next) w in
      let w := setEdges (fun _ => s_edges next) w in
      let w := setFuture (fun f => slice_1 f) w in
      setSelectedNode None w
  end.

(** Create a new node at center of canvas (relative to pan/zoom).  The
    id is the one [generateId] returns when the updater runs.  In the
    browser every render calls [generateId] as well (the initial value
    given to [useState]), so the counter there is ahead of [idCounter],
    which counts the updater's calls only: the ids are distinct and
    increasing in both, their numbers differ, and no statement below
    relies on the number an id carries. *)
Definition handleAddNode (env : Render) (type : string)
    (innerWidth innerHeight : Q) (w : World) : World :=
  let w := pushHistory env w in
  let (newId, c) := generateId (idCounter w) in
  let w := setNodes (fun n =>
             n ++ [ {| n_id := newId;
                       n_type := type;
                       n_position :=
                         {| pos_x := (innerWidth * 0.6 - 100 - t_x (transform env))
                                     / t_k (transform env);
                            pos_y := (innerHeight * 0.4 - 50 - t_y (transform env))
                                     / t_k (transform env) |};
                       n_data := {| label := "New Node" |} |} ]) w in
  setIdCounter c w.

(** Drag move node. *)
Definition handleDragNode (id : string) (dx dy : Q) (w : World) : World :=
  setNodes (fun n =>
    map (fun node =>
           if String.eqb (n_id node) id
           then {| n_id := n_id node;
                   n_type := n_type node;
                   n_position := {| pos_x := pos_x (n_position node) + dx;
                                    pos_y := pos_y (n_position node) + dy |};
                   n_data := n_data node |}
           else node) n) w.

(** Begin connecting from a node. *)
Definition handleStartConnect (id : string) (w : World) : World :=
  setConnecting (Some id) w.

(** Complete connect to another node. *)
Definition handleCompleteConnect (env : Render) (targetId : string)
    (w : World) : World :=
  let w :=
    if truthy (connecting env) && negb (strict_eq (connecting env) targetId)
    then
      match connecting env with
      | Some c =>
          let w := pushHistory env w in
          setEdges (fun e =>
            e ++ [ {| e_from := c; e_to := targetId;
                      e_id := ("e-" ++ c ++ "-" ++ targetId)%string |} ]) w
      | None => w (* not reached: [null] is falsy *)
      end
    else w in
  setConnecting None w.

Definition handleNodeMouseDown (env : Render) (e : MouseEvent)
    (svgRect : DOMRect) (id : string) (w : World) : World :=
  let w := setDraggingNode (Some id) w in
  match findNode id (nodes env) with
  | None => w (* [node.position] of undefined throws: the handler ends here *)
  | Some node =>
      let mouse := getRelativeCoords e svgRect in
      let w := setDragStartOffset
                 {| pos_x := pos_x mouse / t_k (transform env)
                             - pos_x (n_position node);
                    pos_y := pos_y mouse / t_k (transform env)
                             - pos_y (n_position node) |} w in
      setDragListeners (addListener env (dragListeners w)) w
  end.

Definition handleNodeDrag (env : Render) (e : MouseEvent)
    (svgRect : DOMRect) (w : World) : World :=
  if negb (truthy (draggingNode w)) then w else
  let mouse := getRelativeCoords e svgRect in
  let id := draggingNode w in
  let offX := pos_x (dragStartOffset w) in
  let offY := pos_y (dragStartOffset w) in
  let x := pos_x mouse / t_k (transform env) - offX in
  let y := pos_y mouse / t_k (transform env) - offY in
  setNodes (fun n =>
    map (fun node =>
           if strict_eq id (n_id node)
           then {| n_id := n_id node;
                   n_type := n_type node;
                   n_position := {| pos_x := x; pos_y := y |};
                   n_data := n_data node |}
           else node) n) w.

Definition handleNodeMouseUp (env : Render) (w : World) : World :=
  if negb (truthy (draggingNode w)) then w else
  let w := pushHistory env w in
  let w := setDraggingNode None w in
  setDragListeners (removeListener env (dragListeners w)) w.

(** Pan and zoom.  [onBackground] is the test on [e.target]. *)
Definition handleCanvasMouseDown (env : Render) (e : MouseEvent)
    (onBackground : bool) (w : World) : World :=
  if negb (button e =? 1)%Z && onBackground then
    let w := setPanning true w in
    setPanStart {| ps_x := clientX e; ps_y := clientY e;
                   ps_origX := t_x (transform env);
                   ps_origY := t_y (transform env) |} w
  else w.

Definition handleCanvasPanMove (e : MouseEvent) (w : World) : World :=
  if negb (panning w) then w else
  setTransform (fun tr =>
    {| t_x := ps_origX (panStart w) + (clientX e - ps_x (panStart w));
       t_y := ps_origY (panStart w) + (clientY e - ps_y (panStart w));
       t_k := t_k tr |}) w.

Definition handleCanvasPanEnd (w : World) : World := setPanning false w.

Definition handleWheel (env : Render) (deltaY : Q) (w : World) : World :=
  let scale :=
    Math_max 0.2 (Math_min 2.5
      (t_k (transform env) * (if Qlt_bool deltaY 0 then 1.08 else 0.92))) in
  setTransform (fun tr => {| t_x := t_x tr; t_y := t_y tr; t_k := scale |}) w.

(** Node property editing. *)
Definition handleNodeDoubleClick (env : Render) (id : string)
    (w : World) : World :=
  setEditingNode (findNode id (nodes env)) w.

Definition handleNodeUpdate (env : Render) (updatedNode : Node)
    (w : World) : World :=
  let w := pushHistory env w in
  setNodes (fun n =>
    map (fun node =>
           if String.eqb (n_id node) (n_id updatedNode)
           then updatedNode else node) n) w.

(** Canvas click - clear selections. *)
Definition handleCanvasClick (w : World) : World :=
  let w := setSelectedNode None w in
  let w := setEditingNode None w in
  setConnecting None w.

(** Keyboard shortcuts (undo/redo/delete).  [activeIsInput] is the test
    on [document.activeElement]. *)
Definition handleKeyDown (env : Render) (e : KeyboardEvent)
    (activeIsInput : bool) (w : World) : World :=
  if activeIsInput then w else
  if ctrlKey e && String.eqb (key e) "z" then handleUndo env w
  else if ctrlKey e && String.eqb (key e) "y" then handleRedo env w
  else if String.eqb (key e) "Delete" && truthy (selectedNode env) then
    let w := pushHistory env w in
    let w := setNodes (fun n =>
               filter (fun node =>
                         negb (strict_eq (selectedNode env) (n_id node))) n) w in
    let w := setEdges (fun es =>
               filter (fun edge =>
                         negb (strict_eq (selectedNode env) (e_from edge))
                         && negb (strict_eq (selectedNode env) (e_to edge))) es) w in
    setSelectedNode None w
  else w.

(** The Save button of [NodePropertiesEditor]: [onChange] with the edited
    copy of [node], then [onClose]. *)
Definition NodePropertiesEditor_save (env : Render) (node : Node)
    (newLabel : string) (w : World) : World :=
  let w := handleNodeUpdate env
             {| n_id := n_id node; n_type := n_type node;
                n_position := n_position node;
                n_data := {| label := newLabel |} |} w in
  setEditingNode None w.

(** ** Coordinate maps *)

(** [move] of [InProgressEdge]: pointer position to logical coordinates. *)
Definition InProgressEdge_move (tr : Transform) (svgRect : DOMRect)
    (e : MouseEvent) : Position :=
  {| pos_x := (clientX e - left svgRect - t_x tr) / t_k tr;
     pos_y := (clientY e - top svgRect - t_y tr) / t_k tr |}.

(** Where the drawing group puts a logical point: the group's style is
    [translate(x px, y px) scale(k)] inside the svg element whose corner
    is at [svgRect]. *)
Definition toScreen (tr : Transform) (svgRect : DOMRect)
    (p : Position) : Position :=
  {| pos_x := left svgRect + (t_x tr + t_k tr * pos_x p);
     pos_y := top svgRect + (t_y tr + t_k tr * pos_y p) |}.

(** ** Events and the editor as a transition system

    Handlers given to elements as props run in the latest render
    ([st w]); the listeners on [window] run in the render that
    registered them.  [handleKeyDown] is re-registered by its effect
    whenever [selectedNode], [nodes], [edges], [history] or [future]
    change, and reads nothing else, so it too runs in [st w].
    [handleCanvasPanMove] and [handleCanvasPanEnd] read only refs and are
    guarded by [panning.current], which is set exactly while they are
    registered.  [handleDragNode] and [handleCompleteConnect] are bound
    to no element. *)
Inductive Event :=
| SidebarAddNode (type : string) (innerWidth innerHeight : Q)
| TopbarUndo
| TopbarRedo
| NodeMouseDown (e : MouseEvent) (svgRect : DOMRect) (id : string)
| NodeClick (id : string)
| NodeDoubleClick (id : string)
| ConnectCircleMouseDown (id : string)
| CanvasMouseDown (e : MouseEvent) (onBackground : bool)
| CanvasClick
| CanvasWheel (deltaY : Q)
| WindowMouseMove (e : MouseEvent) (svgRect : DOMRect)
| WindowMouseUp
| WindowKeyDown (e : KeyboardEvent) (activeIsInput : bool)
| EditorSave (newLabel : string)
| EditorCancel.

Definition step (w : World) (ev : Event) : World :=
  match ev with
  | SidebarAddNode type iw ih => handleAddNode (st w) type iw ih w
  | TopbarUndo => handleUndo (st w) w
  | TopbarRedo => handleRedo (st w) w
  | NodeMouseDown e svgRect id => handleNodeMouseDown (st w) e svgRect id w
  | NodeClick id => setSelectedNode (Some id) w
  | NodeDoubleClick id => handleNodeDoubleClick (st w) id w
  | ConnectCircleMouseDown id => handleStartConnect id w
  | CanvasMouseDown e onBackground =>
      handleCanvasMouseDown (st w) e onBackground w
  | CanvasClick => handleCanvasClick w
  | CanvasWheel deltaY => handleWheel (st w) deltaY w
  | WindowMouseMove e svgRect =>
      let w := fold_left (fun w env => handleNodeDrag env e svgRect w)
                         (dragListeners w) w in
      handleCanvasPanMove e w
  | WindowMouseUp =>
      let w := fold_left (fun w env => handleNodeMouseUp env w)
                         (dragListeners w) w in
      handleCanvasPanEnd w
  | WindowKeyDown e activeIsInput => handleKeyDown (st w) e activeIsInput w
  | EditorSave newLabel =>
      match editingNode (st w) with
      | Some node => NodePropertiesEditor_save (st w) node newLabel w
      | None => w
      end
  | EditorCancel => setEditingNode None w
  end.

Definition run (w : World) (evs : list Event) : World := fold_left step evs w.

(** The state of the first render.  (Later renders evaluate the initial
    value of [nodes] again and so advance the id counter too; nothing
    below depends on which fresh id a node gets.) *)
Definition initialWorld : World :=
  let (id0, c) := generateId 0 in
  {| st := {| nodes := [ {| n_id := id0; n_type := "default";
                            n_position := {| pos_x := 220; pos_y := 170 |};
                            n_data := {| label := "Start Node" |} |} ];
              edges := [];
              selectedNode := None;
              editingNode := None;
              connecting := None;
              history := [];
              future := [];
              transform := {| t_x := 0; t_y := 0; t_k := 1 |} |};
     draggingNode := None;
     dragStartOffset := {| pos_x := 0; pos_y := 0 |};
     panning := false;
     panStart := {| ps_x := 0; ps_y := 0; ps_origX := 0; ps_origY := 0 |};
     idCounter := c;
     dragListeners := [] |}.

(** The graph part of a render, as [pushHistory] records it. *)
Definition graphOf (r : Render) : Snapshot :=
  {| s_nodes := nodes r; s_edges := edges r |}.

(** Redo, from the button or from the keyboard. *)
Definition is_redo (ev : Event) : bool :=
  match ev with
  | TopbarRedo => true
  | WindowKeyDown e activeIsInput =>
      negb activeIsInput && ctrlKey e && String.eqb (key e) "y"
  | _ => false
  end.

(** ** Stores used as examples *)

(** Two nodes joined by an edge, the first one selected. *)
Definition twoNodesOneEdge : World :=
  let w := step initialWorld (SidebarAddNode "default" 1000 800) in
  let w := handleStartConnect "node-0" w in
  let w := handleCompleteConnect (st w) "node-1" w in
  step w (NodeClick "node-0").

(** A store with a drag listener left over on [window]: during a drag of
    the first node a second button is pressed on it, both buttons are
    released, and a node is added.  The second pointer-down registered
    the listeners of the render after the first pointer-move; the first
    pointer-up ran them after those of the first render had cleared
    [draggingNode.current], so they returned before removing
    themselves. *)
Definition leftoverListenerWorld : World :=
  run initialWorld
    [ NodeMouseDown {| clientX := 300; clientY := 200; button := 0 |}
                    {| left := 0; top := 0 |} "node-0";
      WindowMouseMove {| clientX := 320; clientY := 210; button := 0 |}
                      {| left := 0; top := 0 |};
      NodeMouseDown {| clientX := 320; clientY := 210; button := 2 |}
                    {| left := 0; top := 0 |} "node-0";
      WindowMouseUp;
      WindowMouseUp;
      SidebarAddNode "default" 1000 800 ].

(** A drag of the node added last in [w]: pointer-down on it, one
    pointer-move, pointer-up. *)
Definition dragLastNode (w : World) : list Event :=
  match rev (nodes (st w)) with
  | [] => []
  | node :: _ =>
      [ NodeMouseDown {| clientX := 510; clientY := 280; button := 0 |}
                      {| left := 0; top := 0 |} (n_id node);
        WindowMouseMove {| clientX := 550; clientY := 300; button := 0 |}
                        {| left := 0; top := 0 |};
        WindowMouseUp ]
  end.

(** The canvas dragged 10 pixels to the right. *)
Definition pannedWorld : World :=
  run initialWorld
    [ CanvasMouseDown {| clientX := 0; clientY := 0; button := 0 |} true;
      WindowMouseMove {| clientX := 10; clientY := 0; button := 0 |}
                      {| left := 0; top := 0 |};
      WindowMouseUp ].

(** ** The drag gesture *)

(** The store during a drag that began in the store [w0]: the listeners
    of the render [st w0] are the only ones on [window], the dragged id
    is in the ref, and only the node list (and the view) has moved on. *)
Definition dragging (w0 : World) (id : string) (w : World) : Prop :=
  dragListeners w = [st w0] /\
  draggingNode w = Some id /\
  history (st w) = history (st w0) /\
  future (st w) = future (st w0) /\
  edges (st w) = edges (st w0).

(** Expose the fields of the store. *)
Ltac open_world w :=
  destruct w as [[? ? ? ? ? ? ? ?] ? ? ? ? ? ?];
  simpl in *.

(** ** Drawing the edges *)

(** The body of [edges.map] in the render: the segment between the
    centers of the two endpoint nodes, or nothing ([null]) when either
    endpoint is not found. *)
Definition renderEdge (ns : list Node) (edge : Edge)
  : option (Position * Position) :=
  match findNode (e_from edge) ns, findNode (e_to edge) ns with
  | Some from, Some to => Some (getNodeCenter from, getNodeCenter to)
  | _, _ => None
  end.

(** ** Classes of events and well-formed graphs *)

(** Events whose handlers call no setter of [nodes], [edges], [history]
    or [future]: selection, editing, connection start, pan, zoom, and
    any key pressed while a text input has the focus. *)
Definition is_view_event (ev : Event) : bool :=
  match ev with
  | NodeMouseDown _ _ _ | NodeClick _ | NodeDoubleClick _
  | ConnectCircleMouseDown _ | CanvasMouseDown _ _ | CanvasClick
  | CanvasWheel _ | EditorCancel => true
  | WindowKeyDown _ activeIsInput => activeIsInput
  | _ => false
  end.

(** A graph whose node ids are pairwise distinct and were all produced
    by [generateId] below the counter [c], and which has no edge. *)
Definition goodGraph (c : nat) (s : Snapshot) : Prop :=
  NoDup (map n_id (s_nodes s)) /\
  (forall n, In n (s_nodes s) ->
     exists k, (k < c)%nat /\ n_id n = fst (generateId k)) /\
  s_edges s = [].

(** [goodGraph] for everything the store can bring back: the live graph,
    both stacks and the renders held by the drag listeners. *)
Definition goodStore (w : World) : Prop :=
  goodGraph (idCounter w) (graphOf (st w)) /\
  Forall (goodGraph (idCounter w)) (history (st w)) /\
  Forall (goodGraph (idCounter w)) (future (st w)) /\
  Forall (fun env => goodGraph (idCounter w) (graphOf env)) (dragListeners w).

(** No edge joins a node to itself. *)
Definition noSelfLoop (es : list Edge) : Prop :=
  forall ed, In ed es -> e_from ed <> e_to ed.

(** ** Gestures in progress *)

(** The store during a pan that began with pointer-down [e0] in the
    store [w0]. *)
Definition panningFrom (w0 : World) (e0 : MouseEvent) (w : World) : Prop :=
  panning w = true /\
  panStart w = {| ps_x := clientX e0; ps_y := clientY e0;
                  ps_origX := t_x (transform (st w0));
                  ps_origY := t_y (transform (st w0)) |} /\
  t_k (transform (st w)) = t_k (transform (st w0)).

(** What one drag tick does to a node: the function [handleNodeDrag]
    maps over the node list, for the render [env], the ref values [dn]
    and [off] and the pointer event [e]. *)
Definition placeDragged (env : Render) (dn : option string) (off : Position)
    (e : MouseEvent) (svgRect : DOMRect) (node : Node) : Node :=
  if truthy dn && strict_eq dn (n_id node)
  then {| n_id := n_id node;
          n_type := n_type node;
          n_position :=
            {| pos_x := pos_x (getRelativeCoords e svgRect)
                        / t_k (transform env) - pos_x off;
               pos_y := pos_y (getRelativeCoords e svgRect)
                        / t_k (transform env) - pos_y off |};
          n_data := n_data node |}
  else node.

(** The refs and listeners during a drag registered by the render [env]. *)
Definition draggingWith (env : Render) (dn : option string) (off : Position)
    (w : World) : Prop :=
  dragListeners w = [env] /\ draggingNode w = dn /\ dragStartOffset w = off.

(** ** List facts used by the history stacks *)

Section ListFacts.
Context {A : Type}.

Lemma nth_error_last (h : list A) (x : A) :
  nth_error (h ++ [x]) (List.length (h ++ [x]) - 1) = Some x.
Proof.
  rewrite length_app; simpl.
  replace (List.length h + 1 - 1)%nat with (List.length h) by lia.
  rewrite nth_error_app2 by lia.
  now rewrite Nat.sub_diag.
Qed.

Lemma slice_init_snoc (h : list A) (x : A) : slice_init (h ++ [x]) = h.
Proof.
  unfold slice_init. rewrite length_app; simpl.
  replace (List.length h + 1 - 1)%nat with (List.length h) by lia.
  rewrite firstn_app, Nat.sub_diag, firstn_all; simpl.
  apply app_nil_r.
Qed.

Lemma snoc_cases (h : list A) : h = [] \/ exists h' x, h = h' ++ [x].
Proof.
  destruct h as [|a h]; [now left|right].
  destruct (exists_last (l := a :: h)) as (h' & x & E); [discriminate|].
  now exists h', x.
Qed.

Lemma length_snoc_nonzero (h : list A) (x : A) :
  (List.length (h ++ [x]) =? 0)%nat = false.
Proof. rewrite length_app; simpl. apply Nat.eqb_neq. lia. Qed.
End ListFacts.

(** ** Undo and redo *)

Lemma handleUndo_empty (env : Render) (w : World) :
  history env = [] -> handleUndo env w = w.
Proof. intros E. unfold handleUndo. now rewrite E. Qed.

Lemma handleUndo_snoc (env : Render) (w : World) past prev :
  history env = past ++ [prev] ->
  handleUndo env w =
    setSelectedNode None
      (setHistory (fun h => slice_init h)
        (setEdges (fun _ => s_edges prev)
          (setNodes (fun _ => s_nodes prev)
            (setFuture (fun f => graphOf env :: f) w)))).
Proof.
  intros E. unfold handleUndo.
  now rewrite E, length_snoc_nonzero, nth_error_last.
Qed.

Lemma handleRedo_empty (env : Render) (w : World) :
  future env = [] -> handleRedo env w = w.
Proof. intros E. unfold handleRedo. now rewrite E. Qed.

Lemma handleRedo_cons (env : Render) (w : World) next rest :
  future env = next :: rest ->
  handleRedo env w =
    setSelectedNode None
      (setFuture (fun f => slice_1 f)
        (setEdges (fun _ => s_edges next)
          (setNodes (fun _ => s_nodes next)
            (setHistory (fun h => h ++ [graphOf env]) w)))).
Proof. intros E. unfold handleRedo. now rewrite E. Qed.

(** C2. With a non-empty past stack, undo installs the most recent past
    snapshot as the graph, removes it from the past stack and puts the
    graph it replaced at the front of the future stack; a redo right
    after it gives back the nodes and edges from before the undo.  The
    two stacks are back as well: only the selection differs. *)
Theorem undo_then_redo_restores_graph (w : World) :
  history (st w) <> [] ->
  exists past prev,
    history (st w) = past ++ [prev] /\
    nodes (st (handleUndo (st w) w)) = s_nodes prev /\
    edges (st (handleUndo (st w) w)) = s_edges prev /\
    history (st (handleUndo (st w) w)) = past /\
    future (st (handleUndo (st w) w)) = graphOf (st w) :: future (st w) /\
    let w1 := handleUndo (st w) w in
    nodes (st (handleRedo (st w1) w1)) = nodes (st w) /\
    edges (st (handleRedo (st w1) w1)) = edges (st w) /\
    handleRedo (st w1) w1 = setSelectedNode None w.
Proof.
  intros Hne.
  destruct (snoc_cases (history (st w))) as [E | (past & prev & E)];
    [contradiction|].
  exists past, prev.
  rewrite (handleUndo_snoc _ _ _ _ E).
  open_world w. subst. destruct prev as [pns pes]. simpl.
  rewrite slice_init_snoc.
  repeat split; reflexivity.
Qed.

Lemma undo_then_redo_restores_graph_witness :
  let w := step initialWorld (SidebarAddNode "default" 1000 800) in
  let w1 := handleUndo (st w) w in
  nodes (st w1) = nodes (st initialWorld) /\
  nodes (st (handleRedo (st w1) w1)) = nodes (st w).
Proof.
  destruct (undo_then_redo_restores_graph
              (step initialWorld (SidebarAddNode "default" 1000 800)))
    as (past & prev & E & Hn & _ & _ & _ & Hr & _).
  - vm_compute. discriminate.
  - split; [|exact Hr].
    rewrite Hn.
    change (history (st (step initialWorld (SidebarAddNode "default" 1000 800))))
      with ([] ++ [graphOf (st initialWorld)]) in E.
    apply app_inj_tail in E as [_ <-]. reflexivity.
Defined.

Lemma handleUndo_transform env w :
  transform (st (handleUndo env w)) = transform (st w).
Proof.
  destruct (snoc_cases (history env)) as [E | (past & prev & E)].
  - now rewrite handleUndo_empty.
  - rewrite (handleUndo_snoc _ _ _ _ E). now open_world w.
Qed.

Lemma handleRedo_transform env w :
  transform (st (handleRedo env w)) = transform (st w).
Proof.
  destruct (future env) as [|next rest] eqn:E.
  - now rewrite handleRedo_empty.
  - rewrite (handleRedo_cons _ _ _ _ E). now open_world w.
Qed.

(** C10. Undo and redo never touch the pan/zoom transform, and whenever
    they swap the graph (the handler's render has a non-empty past stack
    for undo, a non-empty future stack for redo) the selection is
    cleared.  [env] is the render the handler belongs to: the latest one,
    [st w], for the buttons and the keyboard. *)
Theorem undo_redo_frame (env : Render) (w : World) :
  transform (st (handleUndo env w)) = transform (st w) /\
  transform (st (handleRedo env w)) = transform (st w) /\
  (history env <> [] -> selectedNode (st (handleUndo env w)) = None) /\
  (future env <> [] -> selectedNode (st (handleRedo env w)) = None).
Proof.
  repeat apply conj.
  - apply handleUndo_transform.
  - apply handleRedo_transform.
  - intros Hne. destruct (snoc_cases (history env)) as [E | (past & prev & E)];
      [contradiction|].
    rewrite (handleUndo_snoc _ _ _ _ E). now open_world w.
  - intros Hne. destruct (future env) as [|next rest] eqn:E; [contradiction|].
    rewrite (handleRedo_cons _ _ _ _ E). now open_world w.
Qed.

Lemma undo_redo_frame_witness :
  selectedNode
    (st (handleUndo (st (step initialWorld (SidebarAddNode "default" 1000 800)))
           (setSelectedNode (Some "node-0"%string)
              (step initialWorld (SidebarAddNode "default" 1000 800)))))
  = None.
Proof.
  destruct (undo_redo_frame
              (st (step initialWorld (SidebarAddNode "default" 1000 800)))
              (setSelectedNode (Some "node-0"%string)
                 (step initialWorld (SidebarAddNode "default" 1000 800))))
    as (_ & _ & Hundo & _).
  apply Hundo. vm_compute. discriminate.
Defined.

(** ** The history stacks under the recorded mutations *)

Lemma pushHistory_future (env : Render) (w : World) :
  future (st (pushHistory env w)) = [].
Proof. now open_world w. Qed.

Lemma pushHistory_history (env : Render) (w : World) :
  history (st (pushHistory env w)) = history (st w) ++ [graphOf env].
Proof. now open_world w. Qed.

(** A drag tick changes the node list and nothing else. *)
Lemma handleNodeDrag_nodes_only env e svgRect w :
  handleNodeDrag env e svgRect w =
  setNodes (fun _ => nodes (st (handleNodeDrag env e svgRect w))) w.
Proof.
  unfold handleNodeDrag.
  destruct (truthy (draggingNode w)); now open_world w.
Qed.

Lemma setNodes_setNodes f g w :
  setNodes f (setNodes g w) = setNodes (fun n => f (g n)) w.
Proof. now open_world w. Qed.

Lemma fold_handleNodeDrag_nodes_only e svgRect ls : forall w,
  let w' := fold_left (fun w env => handleNodeDrag env e svgRect w) ls w in
  w' = setNodes (fun _ => nodes (st w')) w.
Proof.
  induction ls as [|env ls IH]; intros w; simpl.
  - now open_world w.
  - simpl in IH. rewrite IH at 1.
    rewrite handleNodeDrag_nodes_only at 1.
    now rewrite setNodes_setNodes.
Qed.

(** Pointer-up on [window]: the registered listeners run in order; the
    first one finds [draggingNode.current] set, records its snapshot and
    clears the ref, so the remaining ones return at once. *)
Lemma fold_handleNodeMouseUp_idle ls : forall w,
  truthy (draggingNode w) = false ->
  fold_left (fun w env => handleNodeMouseUp env w) ls w = w.
Proof.
  induction ls as [|env ls IH]; intros w Hd; simpl; [reflexivity|].
  unfold handleNodeMouseUp at 2. rewrite Hd; simpl. now apply IH.
Qed.

Lemma handleNodeMouseUp_fires env w :
  truthy (draggingNode w) = true ->
  handleNodeMouseUp env w =
  setDragListeners (removeListener env (dragListeners w))
    (setDraggingNode None (pushHistory env w)).
Proof.
  intros Hd. unfold handleNodeMouseUp. rewrite Hd. now open_world w.
Qed.

Lemma fold_handleNodeMouseUp_cases ls w :
  let w' := fold_left (fun w env => handleNodeMouseUp env w) ls w in
  w' = w \/
  exists env, In env ls /\
    w' = setDragListeners (removeListener env (dragListeners w))
           (setDraggingNode None (pushHistory env w)).
Proof.
  destruct ls as [|env ls]; simpl; [now left|].
  destruct (truthy (draggingNode w)) eqn:Hd.
  - right. exists env. split; [now left|].
    rewrite (handleNodeMouseUp_fires _ _ Hd).
    apply fold_handleNodeMouseUp_idle. now open_world w.
  - left. unfold handleNodeMouseUp at 2. rewrite Hd; simpl.
    now apply fold_handleNodeMouseUp_idle.
Qed.

Lemma slice_init_length {A : Type} (h : list A) :
  (List.length (slice_init h) <= List.length h)%nat.
Proof. unfold slice_init. rewrite length_firstn. lia. Qed.

Lemma handleUndo_history env w :
  history (st (handleUndo env w)) = history (st w) \/
  history (st (handleUndo env w)) = slice_init (history (st w)).
Proof.
  destruct (snoc_cases (history env)) as [E | (past & prev & E)].
  - left. now rewrite handleUndo_empty.
  - right. rewrite (handleUndo_snoc _ _ _ _ E). now open_world w.
Qed.

(** What one event does to the two stacks: unless it is a redo, it
    either leaves the past stack no longer than it was or empties the
    future stack. *)
Lemma step_stacks (w : World) (ev : Event) :
  is_redo ev = false ->
  (List.length (history (st (step w ev))) <= List.length (history (st w)))%nat
  \/ future (st (step w ev)) = [].
Proof.
  intros Hr. destruct ev; simpl in Hr; try discriminate; simpl step.
  - (* add node *)
    right. now open_world w.
  - (* undo button *)
    left. destruct (handleUndo_history (st w) w) as [E | E]; rewrite E;
      [lia | apply slice_init_length].
  - (* pointer-down on a node *)
    left. unfold handleNodeMouseDown.
    destruct (findNode id (nodes (st w))); open_world w; lia.
  - left. open_world w; lia.
  - left. unfold handleNodeDoubleClick. open_world w; lia.
  - left. open_world w; lia.
  - (* pointer-down on the canvas *)
    left. unfold handleCanvasMouseDown.
    destruct (negb (button e =? 1)%Z && onBackground); open_world w; lia.
  - left. open_world w; lia.
  - left. open_world w; lia.
  - (* pointer-move *)
    left. unfold handleCanvasPanMove.
    rewrite (fold_handleNodeDrag_nodes_only e svgRect (dragListeners w) w).
    set (ns' := nodes _).
    match goal with |- context [if ?c then _ else _] => destruct c end;
      open_world w; lia.
  - (* pointer-up *)
    destruct (fold_handleNodeMouseUp_cases (dragListeners w) w)
      as [E | (env & _ & E)]; simpl in E; rewrite E.
    + left. open_world w; lia.
    + right. now open_world w.
  - (* key *)
    unfold handleKeyDown.
    destruct activeIsInput; [left; lia|].
    destruct (ctrlKey e && String.eqb (key e) "z").
    { left. destruct (handleUndo_history (st w) w) as [E | E]; rewrite E;
        [lia | apply slice_init_length]. }
    simpl in Hr. rewrite Hr.
    destruct (String.eqb (key e) "Delete" && truthy (selectedNode (st w)));
      [right; now open_world w | left; lia].
  - (* editor save *)
    destruct (editingNode (st w)) eqn:E;
      [right; now open_world w | left; lia].
  - left. open_world w; lia.
Qed.

(** C3. [pushHistory] empties the future stack.  Hence after any event
    other than a redo that records a snapshot (the past stack has grown)
    the future stack is empty, and a redo, by button or by Ctrl+Y, leaves
    the whole store as it is: nodes, edges, both stacks and the rest. *)
Theorem redo_after_recorded_mutation_is_noop
    (env : Render) (w : World) (ev : Event) :
  is_redo ev = false ->
  (List.length (history (st w)) < List.length (history (st (step w ev))))%nat ->
  future (st (pushHistory env w)) = [] /\
  future (st (step w ev)) = [] /\
  step (step w ev) TopbarRedo = step w ev /\
  step (step w ev) (WindowKeyDown {| ctrlKey := true; key := "y" |} false)
    = step w ev.
Proof.
  intros Hr Hlen.
  destruct (step_stacks w ev Hr) as [Hle | Hf]; [lia|].
  repeat apply conj.
  - apply pushHistory_future.
  - exact Hf.
  - simpl. now apply handleRedo_empty.
  - simpl. unfold handleKeyDown; simpl. now apply handleRedo_empty.
Qed.

Lemma redo_after_recorded_mutation_is_noop_witness :
  let w := run initialWorld
             [SidebarAddNode "default" 1000 800; TopbarUndo] in
  let ev := SidebarAddNode "default" 1200 900 in
  future (st w) <> [] /\
  step (step w ev) TopbarRedo = step w ev.
Proof.
  split; [vm_compute; discriminate|].
  destruct (redo_after_recorded_mutation_is_noop
              (st initialWorld)
              (run initialWorld [SidebarAddNode "default" 1000 800; TopbarUndo])
              (SidebarAddNode "default" 1200 900)) as (_ & _ & Hredo & _).
  - reflexivity.
  - vm_compute. lia.
  - exact Hredo.
Defined.

(** ** Deleting a node and its edges *)

Lemma truthy_Some (s : string) : s <> EmptyString -> truthy (Some s) = true.
Proof.
  intros H. simpl. apply negb_true_iff, String.eqb_neq. exact H.
Qed.

(** The Delete branch of [handleKeyDown], once its guards hold. *)
Lemma handleKeyDown_Delete env e w sel :
  key e = "Delete"%string -> selectedNode env = Some sel ->
  sel <> EmptyString ->
  handleKeyDown env e false w =
  setSelectedNode None
    (setEdges (filter (fun edge => negb (String.eqb sel (e_from edge))
                                   && negb (String.eqb sel (e_to edge))))
      (setNodes (filter (fun node => negb (String.eqb sel (n_id node))))
        (pushHistory env w))).
Proof.
  intros Hk Hs Hne. unfold handleKeyDown. rewrite Hk, Hs; simpl String.eqb.
  rewrite !andb_false_r, (truthy_Some _ Hne). reflexivity.
Qed.

Lemma eqb_false_neq (a b : string) : negb (String.eqb a b) = true -> b <> a.
Proof.
  intros H E. apply negb_true_iff, String.eqb_neq in H. congruence.
Qed.

Lemma neq_eqb_false (a b : string) : b <> a -> negb (String.eqb a b) = true.
Proof.
  intros H. apply negb_true_iff, String.eqb_neq. congruence.
Qed.

(** C5. The Delete key with node [id] selected (focus outside any text
    input) removes every node with that id and every edge that starts or
    ends at it; every other node and every other edge stays, and nothing
    is added. *)
Theorem delete_key_cascades (w : World) (e : KeyboardEvent) (id : string) :
  key e = "Delete"%string ->
  selectedNode (st w) = Some id ->
  id <> EmptyString ->
  let w' := step w (WindowKeyDown e false) in
  (forall n, In n (nodes (st w')) -> n_id n <> id) /\
  (forall ed, In ed (edges (st w')) -> e_from ed <> id /\ e_to ed <> id) /\
  (forall n, In n (nodes (st w)) -> n_id n <> id -> In n (nodes (st w'))) /\
  (forall n, In n (nodes (st w')) -> In n (nodes (st w))) /\
  (forall ed, In ed (edges (st w)) -> e_from ed <> id -> e_to ed <> id ->
              In ed (edges (st w'))) /\
  (forall ed, In ed (edges (st w')) -> In ed (edges (st w))).
Proof.
  intros Hk Hs Hne w'. subst w'. unfold step.
  rewrite (handleKeyDown_Delete _ _ _ _ Hk Hs Hne).
  open_world w. clear Hs.
  repeat apply conj.
  - intros n Hin. apply filter_In in Hin as [_ Hin].
    now apply eqb_false_neq.
  - intros ed Hin. apply filter_In in Hin as [_ Hin].
    apply andb_true_iff in Hin as [Hf Ht].
    split; now apply eqb_false_neq.
  - intros n Hin Hn. apply filter_In. split; [assumption|].
    now apply neq_eqb_false.
  - intros n Hin. now apply filter_In in Hin.
  - intros ed Hin Hf Ht. apply filter_In. split; [assumption|].
    apply andb_true_iff; split; now apply neq_eqb_false.
  - intros ed Hin. now apply filter_In in Hin.
Qed.

Lemma delete_key_cascades_witness :
  let w' := step twoNodesOneEdge
              (WindowKeyDown {| ctrlKey := false; key := "Delete" |} false) in
  map e_id (edges (st twoNodesOneEdge)) = ["e-node-0-node-1"%string] /\
  map n_id (nodes (st w')) = ["node-1"%string] /\
  edges (st w') = [] /\
  (forall n, In n (nodes (st w')) -> n_id n <> "node-0"%string).
Proof.
  repeat apply conj; try (vm_compute; reflexivity).
  destruct (delete_key_cascades twoNodesOneEdge
              {| ctrlKey := false; key := "Delete" |} "node-0")
    as (Hnodes & _); [reflexivity | reflexivity | discriminate |].
  exact Hnodes.
Defined.

(** ** Completing a connection *)

(** C7. Completing a connection that started at [x] on [x] itself adds
    no edge and records nothing: nodes, edges and both stacks are the
    same afterwards, and the connection in progress is cleared. *)
Theorem self_connect_rejected (env : Render) (w : World) (x : string) :
  connecting env = Some x ->
  let w' := handleCompleteConnect env x w in
  edges (st w') = edges (st w) /\
  nodes (st w') = nodes (st w) /\
  history (st w') = history (st w) /\
  future (st w') = future (st w) /\
  connecting (st w') = None /\
  w' = setConnecting None w.
Proof.
  intros Hc w'. subst w'. unfold handleCompleteConnect.
  rewrite Hc. simpl strict_eq. rewrite String.eqb_refl, andb_false_r.
  open_world w. repeat split; reflexivity.
Qed.

Lemma self_connect_rejected_witness :
  let w := handleStartConnect "node-0" initialWorld in
  connecting (st w) = Some "node-0"%string /\
  edges (st (handleCompleteConnect (st w) "node-0" w)) = edges (st w).
Proof.
  split; [reflexivity|].
  destruct (self_connect_rejected
              (st (handleStartConnect "node-0" initialWorld))
              (handleStartConnect "node-0" initialWorld) "node-0")
    as (Hedges & _); [reflexivity|].
  exact Hedges.
Defined.

(** ** Operations on an id that no node has *)

Section UnknownId.
Context {A : Type}.

Lemma map_fix (f : A -> A) (l : list A) :
  (forall a, In a l -> f a = a) -> map f l = l.
Proof.
  induction l as [|a l IH]; intros H; simpl; [reflexivity|].
  rewrite H by now left. f_equal. apply IH. intros b Hb. apply H. now right.
Qed.

Lemma filter_fix (p : A -> bool) (l : list A) :
  (forall a, In a l -> p a = true) -> filter p l = l.
Proof.
  induction l as [|a l IH]; intros H; simpl; [reflexivity|].
  rewrite H by now left. f_equal. apply IH. intros b Hb. apply H. now right.
Qed.
End UnknownId.

(** On any store, when no node has the id [id]: a move by
    [handleDragNode] (and a drag tick of [handleNodeDrag] on that id) and
    a label save by [handleNodeUpdate] leave the node list and the edge
    list as they are; the Delete key with [id] selected leaves the node
    list as it is and removes only edges that start or end at [id]. *)
Lemma unknown_id_on_any_store (w : World) (id : string) :
  (forall n, In n (nodes (st w)) -> n_id n <> id) ->
  (forall dx dy,
     nodes (st (handleDragNode id dx dy w)) = nodes (st w) /\
     edges (st (handleDragNode id dx dy w)) = edges (st w)) /\
  (forall env e svgRect, draggingNode w = Some id ->
     nodes (st (handleNodeDrag env e svgRect w)) = nodes (st w) /\
     edges (st (handleNodeDrag env e svgRect w)) = edges (st w)) /\
  (forall env updatedNode, n_id updatedNode = id ->
     nodes (st (handleNodeUpdate env updatedNode w)) = nodes (st w) /\
     edges (st (handleNodeUpdate env updatedNode w)) = edges (st w)) /\
  (forall env e activeIsInput,
     selectedNode env = Some id -> key e = "Delete"%string ->
     let w' := handleKeyDown env e activeIsInput w in
     nodes (st w') = nodes (st w) /\
     (forall ed, In ed (edges (st w')) -> In ed (edges (st w))) /\
     (forall ed, In ed (edges (st w)) -> e_from ed <> id -> e_to ed <> id ->
                 In ed (edges (st w'))) /\
     ((forall ed, In ed (edges (st w)) -> e_from ed <> id /\ e_to ed <> id) ->
      edges (st w') = edges (st w))).
Proof.
  intros Hun.
  assert (Hneq : forall n, In n (nodes (st w)) -> String.eqb (n_id n) id = false)
    by (intros n Hn; apply String.eqb_neq; now apply Hun).
  assert (Hneq' : forall n, In n (nodes (st w)) -> String.eqb id (n_id n) = false)
    by (intros n Hn; apply String.eqb_neq; intros E; now apply (Hun n Hn)).
  repeat apply conj.
  - intros dx dy. unfold handleDragNode. open_world w. split; [|reflexivity].
    apply map_fix. intros n Hn. now rewrite Hneq.
  - intros env e svgRect Hd. unfold handleNodeDrag. rewrite Hd.
    destruct (truthy (Some id)); simpl; [|now split].
    open_world w. split; [|reflexivity].
    apply map_fix. intros n Hn. now rewrite Hneq'.
  - intros env u Hu. unfold handleNodeUpdate. open_world w.
    split; [|reflexivity].
    apply map_fix. intros n Hn. now rewrite Hu, Hneq.
  - intros env e a Hs Hk w'. subst w'.
    destruct a; [simpl; tauto|].
    destruct (String.eqb id EmptyString) eqn:Hid.
    + (* the empty string is falsy: nothing happens *)
      unfold handleKeyDown. rewrite Hk, Hs; simpl. rewrite Hid, !andb_false_r.
      simpl. tauto.
    + apply String.eqb_neq in Hid.
      rewrite (handleKeyDown_Delete _ _ _ _ Hk Hs Hid). open_world w.
      repeat apply conj.
      * apply filter_fix. intros n Hn. now rewrite Hneq'.
      * intros edge Hin. now apply filter_In in Hin.
      * intros edge Hin Hf Ht. apply filter_In. split; [assumption|].
        apply andb_true_iff; split; now apply neq_eqb_false.
      * intros Hed. apply filter_fix. intros edge Hin.
        destruct (Hed edge Hin) as [Hf Ht].
        apply andb_true_iff; split; now apply neq_eqb_false.
Qed.

(** ** Coordinates *)

Lemma zoom_range_nonzero (k : Q) : 0.2 <= k <= 2.5 -> ~ k == 0.
Proof. intros [H _] E. rewrite E in H. revert H. now compute. Qed.

(** C9. For a transform whose zoom factor lies in [0.2, 2.5] and any pan
    offset, mapping a pointer position to logical coordinates (subtract
    the canvas corner and the pan offset, divide by k) and mapping the
    result back to the screen (scale by k, translate by the pan offset
    and the canvas corner) gives the pointer position again, exactly. *)
Theorem coordinate_round_trip
    (tr : Transform) (svgRect : DOMRect) (e : MouseEvent) :
  0.2 <= t_k tr <= 2.5 ->
  pos_x (toScreen tr svgRect (InProgressEdge_move tr svgRect e)) == clientX e /\
  pos_y (toScreen tr svgRect (InProgressEdge_move tr svgRect e)) == clientY e.
Proof.
  intros Hk. apply zoom_range_nonzero in Hk.
  split; simpl; field; exact Hk.
Qed.

Lemma coordinate_round_trip_witness :
  let tr := {| t_x := 35; t_y := -12; t_k := 1.5 |} in
  let svgRect := {| left := 240; top := 56 |} in
  let e := {| clientX := 701; clientY := 333; button := 0 |} in
  pos_x (toScreen tr svgRect (InProgressEdge_move tr svgRect e)) == 701 /\
  pos_y (toScreen tr svgRect (InProgressEdge_move tr svgRect e)) == 333.
Proof.
  apply (coordinate_round_trip
           {| t_x := 35; t_y := -12; t_k := 1.5 |}
           {| left := 240; top := 56 |}
           {| clientX := 701; clientY := 333; button := 0 |}).
  vm_compute. split; discriminate.
Defined.

(** C6, as stated, fails once the canvas is panned: the offset stored at
    pointer-down is not the transformed pointer position minus the node
    origin. *)
Lemma drag_offset_is_not_transformed_pointer :
  ~ (forall (w : World) (e : MouseEvent) (svgRect : DOMRect) (id : string)
            (node : Node),
       findNode id (nodes (st w)) = Some node ->
       0.2 <= t_k (transform (st w)) <= 2.5 ->
       let w1 := step w (NodeMouseDown e svgRect id) in
       pos_x (dragStartOffset w1)
         == pos_x (InProgressEdge_move (transform (st w)) svgRect e)
            - pos_x (n_position node) /\
       pos_y (dragStartOffset w1)
         == pos_y (InProgressEdge_move (transform (st w)) svgRect e)
            - pos_y (n_position node)).
Proof.
  intros H.
  destruct (H pannedWorld {| clientX := 300; clientY := 200; button := 0 |}
              {| left := 0; top := 0 |} "node-0"%string
              {| n_id := "node-0"; n_type := "default";
                 n_position := {| pos_x := 220; pos_y := 170 |};
                 n_data := {| label := "Start Node" |} |}) as [Hx _].
  - reflexivity.
  - vm_compute. split; discriminate.
  - vm_compute in Hx. discriminate.
Qed.

Lemma map_In_id (f : Node -> Node) (ns : list Node) (n' : Node) :
  In n' (map f ns) -> exists n, In n ns /\ n' = f n.
Proof.
  intros H. apply in_map_iff in H as (n & E & Hn). now exists n.
Qed.

(** C6, amended.  At pointer-down on a node the stored drag offset is the
    pointer position relative to the canvas corner divided by k, minus
    the node origin: the pan offset is not subtracted, so the conversion
    is lx = (sx - ox) / k, ly = (sy - oy) / k, for every k in [0.2, 2.5]
    and every pan offset.  It exceeds the offset taken through the
    coordinate transform by (x / k, y / k).  A drag tick of the same
    gesture uses the same conversion, so the constant cancels: the node
    is put at its origin plus the pointer's displacement in logical
    coordinates. *)
Theorem drag_offset_ignores_pan
    (w : World) (e : MouseEvent) (svgRect : DOMRect) (id : string)
    (node : Node) :
  findNode id (nodes (st w)) = Some node ->
  0.2 <= t_k (transform (st w)) <= 2.5 ->
  let tr := transform (st w) in
  let w1 := step w (NodeMouseDown e svgRect id) in
  let off := dragStartOffset w1 in
  pos_x off == (clientX e - left svgRect) / t_k tr - pos_x (n_position node) /\
  pos_y off == (clientY e - top svgRect) / t_k tr - pos_y (n_position node) /\
  pos_x off == pos_x (InProgressEdge_move tr svgRect e)
               - pos_x (n_position node) + t_x tr / t_k tr /\
  pos_y off == pos_y (InProgressEdge_move tr svgRect e)
               - pos_y (n_position node) + t_y tr / t_k tr /\
  (forall e' svgRect' n',
     id <> EmptyString ->
     In n' (nodes (st (handleNodeDrag (st w) e' svgRect' w1))) ->
     n_id n' = id ->
     pos_x (n_position n')
       == pos_x (n_position node)
          + (pos_x (InProgressEdge_move tr svgRect' e')
             - pos_x (InProgressEdge_move tr svgRect e)) /\
     pos_y (n_position n')
       == pos_y (n_position node)
          + (pos_y (InProgressEdge_move tr svgRect' e')
             - pos_y (InProgressEdge_move tr svgRect e))).
Proof.
  intros Hfind Hk tr w1 off. subst tr w1 off.
  apply zoom_range_nonzero in Hk.
  unfold step, handleNodeMouseDown. rewrite Hfind.
  open_world w.
  repeat apply conj; try (field; exact Hk).
  intros e' svgRect' n' Hid Hin Hn'.
  unfold handleNodeDrag in Hin. simpl in Hin.
  apply String.eqb_neq in Hid. rewrite Hid in Hin. simpl in Hin.
  apply map_In_id in Hin as (n & Hn & ->).
  destruct (String.eqb id (n_id n)) eqn:E.
  - simpl. split; field; exact Hk.
  - simpl in Hn'. apply String.eqb_neq in E. congruence.
Qed.

Lemma drag_offset_ignores_pan_witness :
  pos_x (dragStartOffset
           (step pannedWorld
              (NodeMouseDown {| clientX := 300; clientY := 200; button := 0 |}
                             {| left := 0; top := 0 |} "node-0")))
  == (300 - 0) / 1 - 220.
Proof.
  destruct (drag_offset_ignores_pan pannedWorld
           {| clientX := 300; clientY := 200; button := 0 |}
           {| left := 0; top := 0 |} "node-0"
           {| n_id := "node-0"; n_type := "default";
              n_position := {| pos_x := 220; pos_y := 170 |};
              n_data := {| label := "Start Node" |} |}) as (Hx & _).
  - reflexivity.
  - vm_compute. split; discriminate.
  - exact Hx.
Defined.

(** ** Zoom *)

Lemma Qle_bool_false (a b : Q) : Qle_bool a b = false -> b < a.
Proof.
  intros H. apply Qnot_le_lt. intros Hle.
  apply Qle_bool_iff in Hle. congruence.
Qed.

Lemma clamp_bounds (a : Q) :
  0.2 <= Math_max 0.2 (Math_min 2.5 a) <= 2.5.
Proof.
  unfold Math_max, Math_min.
  destruct (Qle_bool 2.5 a) eqn:E1.
  - destruct (Qle_bool 0.2 2.5) eqn:E2; lra.
  - apply Qle_bool_false in E1.
    destruct (Qle_bool 0.2 a) eqn:E2.
    + apply Qle_bool_iff in E2. lra.
    + lra.
Qed.

Lemma clamp_inside (a : Q) :
  0.2 <= a <= 2.5 -> Math_max 0.2 (Math_min 2.5 a) == a.
Proof.
  intros [Hlo Hhi]. unfold Math_max, Math_min.
  destruct (Qle_bool 2.5 a) eqn:E1.
  - apply Qle_bool_iff in E1.
    destruct (Qle_bool 0.2 2.5) eqn:E2; [lra | discriminate].
  - destruct (Qle_bool 0.2 a) eqn:E2; [reflexivity|].
    apply Qle_bool_false in E2. lra.
Qed.

Lemma Qlt_bool_iff (a b : Q) : Qlt_bool a b = true <-> a < b.
Proof.
  unfold Qlt_bool. rewrite negb_true_iff. split.
  - apply Qle_bool_false.
  - intros H. destruct (Qle_bool b a) eqn:E; [|reflexivity].
    apply Qle_bool_iff in E. lra.
Qed.

(** Only the wheel changes the zoom factor. *)
Lemma step_zoom (w : World) (ev : Event) :
  t_k (transform (st (step w ev))) = t_k (transform (st w)) \/
  exists deltaY, ev = CanvasWheel deltaY.
Proof.
  destruct ev; unfold step;
    try (right; eexists; reflexivity); left.
  - now open_world w.
  - now rewrite handleUndo_transform.
  - now rewrite handleRedo_transform.
  - unfold handleNodeMouseDown.
    destruct (findNode id (nodes (st w))); now open_world w.
  - now open_world w.
  - unfold handleNodeDoubleClick. now open_world w.
  - now open_world w.
  - unfold handleCanvasMouseDown.
    destruct (negb (button e =? 1)%Z && onBackground); now open_world w.
  - now open_world w.
  - unfold handleCanvasPanMove.
    rewrite (fold_handleNodeDrag_nodes_only e svgRect (dragListeners w) w).
    set (ns' := nodes _).
    match goal with |- context [if ?c then _ else _] => destruct c end;
      now open_world w.
  - destruct (fold_handleNodeMouseUp_cases (dragListeners w) w)
      as [E | (env & _ & E)]; simpl in E; rewrite E; now open_world w.
  - unfold handleKeyDown.
    destruct activeIsInput; [reflexivity|].
    destruct (ctrlKey e && String.eqb (key e) "z");
      [now rewrite handleUndo_transform|].
    destruct (ctrlKey e && String.eqb (key e) "y");
      [now rewrite handleRedo_transform|].
    destruct (String.eqb (key e) "Delete" && truthy (selectedNode (st w)));
      now open_world w.
  - destruct (editingNode (st w)); now open_world w.
  - now open_world w.
Qed.

Lemma handleWheel_range env deltaY w :
  0.2 <= t_k (transform (st (handleWheel env deltaY w))) <= 2.5.
Proof. open_world w. apply clamp_bounds. Qed.

Lemma run_zoom_range (evs : list Event) : forall w,
  0.2 <= t_k (transform (st w)) <= 2.5 ->
  0.2 <= t_k (transform (st (run w evs))) <= 2.5.
Proof.
  induction evs as [|ev evs IH]; intros w Hw; simpl; [exact Hw|].
  apply IH.
  destruct (step_zoom w ev) as [E | (deltaY & ->)].
  - now rewrite E.
  - apply handleWheel_range.
Qed.

(** C4, as stated, fails for a zoom-out notch: the factor is 0.92, not
    1/1.08. *)
Lemma zoom_out_factor_is_not_reciprocal :
  ~ (forall (w : World) (deltaY : Q),
       ~ deltaY < 0 ->
       t_k (transform (st (step w (CanvasWheel deltaY))))
       == Math_max 0.2 (Math_min 2.5 (t_k (transform (st w)) * (1 / 1.08)))).
Proof.
  intros H. specialize (H initialWorld 100).
  assert (Hd : ~ 100 < 0) by (intros C; revert C; now compute).
  specialize (H Hd). vm_compute in H. discriminate.
Qed.

(** C4, amended.  A wheel event multiplies the zoom factor k by 1.08 for
    a zoom-in notch (deltaY < 0) and by 0.92 otherwise, and clamps the
    result into [0.2, 2.5]; the pan offset is kept.  The new k is the
    product itself while that lies within the bounds.  Hence from a
    factor within the bounds no sequence of events, wheel events
    included, leads outside them. *)
Theorem wheel_zoom_clamped (w : World) (deltaY : Q) (evs : list Event) :
  0.2 <= t_k (transform (st w)) <= 2.5 ->
  let k := t_k (transform (st w)) in
  let w' := step w (CanvasWheel deltaY) in
  let k' := t_k (transform (st w')) in
  (deltaY < 0 -> k' == Math_max 0.2 (Math_min 2.5 (k * 1.08))) /\
  (~ deltaY < 0 -> k' == Math_max 0.2 (Math_min 2.5 (k * 0.92))) /\
  (deltaY < 0 -> k * 1.08 <= 2.5 -> k' == k * 1.08) /\
  (~ deltaY < 0 -> 0.2 <= k * 0.92 -> k' == k * 0.92) /\
  0.2 <= k' <= 2.5 /\
  t_x (transform (st w')) = t_x (transform (st w)) /\
  t_y (transform (st w')) = t_y (transform (st w)) /\
  0.2 <= t_k (transform (st (run w evs))) <= 2.5.
Proof.
  intros Hk k w' k'. subst k w' k'. unfold step.
  assert (Hin : deltaY < 0 -> Qlt_bool deltaY 0 = true)
    by (intros H; now apply Qlt_bool_iff).
  assert (Hout : ~ deltaY < 0 -> Qlt_bool deltaY 0 = false).
  { intros H. destruct (Qlt_bool deltaY 0) eqn:E; [|reflexivity].
    apply Qlt_bool_iff in E. contradiction. }
  pose proof (handleWheel_range (st w) deltaY w) as Hrange.
  pose proof (run_zoom_range evs w Hk) as Hrun.
  unfold handleWheel in *. open_world w.
  repeat apply conj; try tauto; try reflexivity.
  - intros H. now rewrite (Hin H).
  - intros H. now rewrite (Hout H).
  - intros H Hhi. rewrite (Hin H). apply clamp_inside. lra.
  - intros H Hlo. rewrite (Hout H). apply clamp_inside. lra.
Qed.

Lemma wheel_zoom_clamped_witness :
  t_k (transform (st (step initialWorld (CanvasWheel 100))))
    == t_k (transform (st initialWorld)) * 0.92 /\
  0.2 <= t_k (transform (st (run initialWorld (repeat (CanvasWheel 100) 40))))
      <= 2.5.
Proof.
  assert (Hk : 0.2 <= t_k (transform (st initialWorld)) <= 2.5)
    by (vm_compute; split; discriminate).
  destruct (wheel_zoom_clamped initialWorld 100 (repeat (CanvasWheel 100) 40) Hk)
    as (_ & _ & _ & Hout & _ & _ & _ & Hrun).
  split; [|exact Hrun].
  apply Hout.
  - intros C. vm_compute in C. discriminate.
  - vm_compute. discriminate.
Defined.

(** ** Snapshots are taken from the state before the mutation *)

Lemma handleRedo_history env w :
  history (st (handleRedo env w)) = history (st w) \/
  history (st (handleRedo env w)) = history (st w) ++ [graphOf env].
Proof.
  destruct (future env) as [|next rest] eqn:E.
  - left. now rewrite handleRedo_empty.
  - right. rewrite (handleRedo_cons _ _ _ _ E). now open_world w.
Qed.

(** With no drag listener left on [window], whatever one event does to
    the past stack is one of: nothing, dropping the last entry (undo),
    or appending the graph as it was when the event arrived. *)
Lemma step_history_cases (w : World) (ev : Event) :
  dragListeners w = [] ->
  history (st (step w ev)) = history (st w) \/
  history (st (step w ev)) = slice_init (history (st w)) \/
  history (st (step w ev)) = history (st w) ++ [graphOf (st w)].
Proof.
  intros Hls. destruct ev; unfold step.
  - right; right. now open_world w.
  - destruct (handleUndo_history (st w) w) as [E | E]; rewrite E; tauto.
  - destruct (handleRedo_history (st w) w) as [E | E]; rewrite E; tauto.
  - left. unfold handleNodeMouseDown.
    destruct (findNode id (nodes (st w))); now open_world w.
  - left. now open_world w.
  - left. unfold handleNodeDoubleClick. now open_world w.
  - left. now open_world w.
  - left. unfold handleCanvasMouseDown.
    destruct (negb (button e =? 1)%Z && onBackground); now open_world w.
  - left. now open_world w.
  - left. now open_world w.
  - left. rewrite Hls. simpl. unfold handleCanvasPanMove.
    destruct (negb (panning w)); now open_world w.
  - left. rewrite Hls. now open_world w.
  - unfold handleKeyDown.
    destruct activeIsInput; [now left|].
    destruct (ctrlKey e && String.eqb (key e) "z").
    { destruct (handleUndo_history (st w) w) as [E | E]; rewrite E; tauto. }
    destruct (ctrlKey e && String.eqb (key e) "y").
    { destruct (handleRedo_history (st w) w) as [E | E]; rewrite E; tauto. }
    destruct (String.eqb (key e) "Delete" && truthy (selectedNode (st w)));
      [right; right | left]; now open_world w.
  - destruct (editingNode (st w)); [right; right | left]; now open_world w.
  - left. now open_world w.
Qed.

Lemma removeListener_single (env : Render) : removeListener env [env] = [].
Proof.
  unfold removeListener. simpl.
  destruct (Render_eq_dec env env); [reflexivity | congruence].
Qed.

Lemma handleNodeMouseDown_dragging w0 e svgRect id :
  dragListeners w0 = [] ->
  findNode id (nodes (st w0)) <> None ->
  dragging w0 id (step w0 (NodeMouseDown e svgRect id)).
Proof.
  intros Hls Hfind. unfold step, handleNodeMouseDown.
  destruct (findNode id (nodes (st w0))) as [node|]; [|contradiction].
  unfold dragging. open_world w0. subst. repeat split; reflexivity.
Qed.

Lemma WindowMouseMove_dragging w0 id w e svgRect :
  dragging w0 id w -> dragging w0 id (step w (WindowMouseMove e svgRect)).
Proof.
  intros (Hls & Hd & Hh & Hf & He). unfold step.
  rewrite (fold_handleNodeDrag_nodes_only e svgRect (dragListeners w) w).
  set (ns' := nodes _). clearbody ns'.
  unfold handleCanvasPanMove, dragging.
  match goal with |- context [if ?c then _ else _] => destruct c end;
    open_world w; repeat split; assumption.
Qed.

Lemma run_moves_dragging w0 id (moves : list (MouseEvent * DOMRect)) :
  forall w, dragging w0 id w ->
  dragging w0 id
    (run w (map (fun m => WindowMouseMove (fst m) (snd m)) moves)).
Proof.
  induction moves as [|m moves IH]; intros w H; simpl; [exact H|].
  apply IH. now apply WindowMouseMove_dragging.
Qed.

Lemma WindowMouseUp_dragging w0 id w :
  id <> EmptyString -> dragging w0 id w ->
  let w' := step w WindowMouseUp in
  history (st w') = history (st w0) ++ [graphOf (st w0)] /\
  future (st w') = [] /\
  nodes (st w') = nodes (st w) /\
  edges (st w') = edges (st w0) /\
  draggingNode w' = None /\
  dragListeners w' = [].
Proof.
  intros Hid (Hls & Hd & Hh & Hf & He). unfold step.
  rewrite Hls. simpl fold_left.
  rewrite handleNodeMouseUp_fires by (rewrite Hd; now apply truthy_Some).
  rewrite Hls, removeListener_single.
  open_world w. subst. repeat split; reflexivity.
Qed.

(** X16. A drag that starts with no drag listener left over on
    [window] (pointer-down on an existing node with a non-empty id, any
    number of pointer-moves, pointer-up) leaves the past stack alone
    until pointer-up, which appends exactly one snapshot: the nodes and
    edges as they were at pointer-down, before any pointer-move.  One
    undo after the drag restores them, and no listener is left behind. *)
Theorem clean_drag_records_pre_drag_graph
    (w0 : World) (e0 : MouseEvent) (svgRect0 : DOMRect) (id : string)
    (moves : list (MouseEvent * DOMRect)) :
  dragListeners w0 = [] ->
  id <> EmptyString ->
  findNode id (nodes (st w0)) <> None ->
  let w1 := step w0 (NodeMouseDown e0 svgRect0 id) in
  let w2 := run w1 (map (fun m => WindowMouseMove (fst m) (snd m)) moves) in
  let w3 := step w2 WindowMouseUp in
  history (st w2) = history (st w0) /\
  history (st w3) = history (st w0) ++ [graphOf (st w0)] /\
  nodes (st w3) = nodes (st w2) /\
  nodes (st (step w3 TopbarUndo)) = nodes (st w0) /\
  edges (st (step w3 TopbarUndo)) = edges (st w0) /\
  dragListeners w3 = [].
Proof.
  intros Hls Hid Hfind w1 w2 w3.
  assert (H2 : dragging w0 id w2).
  { apply run_moves_dragging. now apply handleNodeMouseDown_dragging. }
  destruct (WindowMouseUp_dragging w0 id w2 Hid H2)
    as (Hh3 & Hf3 & Hn3 & He3 & Hd3 & Hl3).
  fold w3 in Hh3, Hf3, Hn3, He3, Hd3, Hl3.
  assert (Hundo : step w3 TopbarUndo =
            setSelectedNode None
              (setHistory (fun h => slice_init h)
                (setEdges (fun _ => edges (st w0))
                  (setNodes (fun _ => nodes (st w0))
                    (setFuture (fun f => graphOf (st w3) :: f) w3)))))
    by (unfold step; now rewrite (handleUndo_snoc _ _ _ _ Hh3)).
  repeat apply conj.
  - apply H2.
  - exact Hh3.
  - exact Hn3.
  - rewrite Hundo. clear. now open_world w3.
  - rewrite Hundo. clear. now open_world w3.
  - exact Hl3.
Qed.

(** The first node dragged by (40, 25) in two pointer-moves. *)
Lemma clean_drag_records_pre_drag_graph_witness :
  let down := NodeMouseDown {| clientX := 300; clientY := 200; button := 0 |}
                            {| left := 0; top := 0 |} "node-0" in
  let moves := [ ({| clientX := 320; clientY := 210; button := 0 |},
                  {| left := 0; top := 0 |});
                 ({| clientX := 340; clientY := 225; button := 0 |},
                  {| left := 0; top := 0 |}) ] in
  let w3 := run initialWorld
              (down :: map (fun m => WindowMouseMove (fst m) (snd m)) moves
                 ++ [WindowMouseUp]) in
  map n_position (nodes (st w3)) = [ {| pos_x := 260; pos_y := 195 |} ] /\
  history (st w3) = [graphOf (st initialWorld)] /\
  nodes (st (step w3 TopbarUndo)) = nodes (st initialWorld).
Proof.
  destruct (clean_drag_records_pre_drag_graph initialWorld
              {| clientX := 300; clientY := 200; button := 0 |}
              {| left := 0; top := 0 |} "node-0"
              [ ({| clientX := 320; clientY := 210; button := 0 |},
                 {| left := 0; top := 0 |});
                ({| clientX := 340; clientY := 225; button := 0 |},
                 {| left := 0; top := 0 |}) ])
    as (_ & Hh & _ & Hn & _).
  - reflexivity.
  - discriminate.
  - vm_compute. discriminate.
  - repeat apply conj.
    + vm_compute. reflexivity.
    + exact Hh.
    + exact Hn.
Defined.

(** C1. On a store the events can produce, a drag does not record the
    graph from before the drag.  In [leftoverListenerWorld] a listener
    of an earlier render is still on [window]; at the pointer-up of the
    next drag it runs first and pushes the nodes of its own render, in
    which the node being dragged does not exist yet.  The snapshot is
    therefore not the pre-drag graph, and one undo after the drag
    removes the dragged node instead of putting it back where it was. *)
Theorem leftover_listener_records_stale_snapshot :
  let w := leftoverListenerWorld in
  let w3 := run w (dragLastNode w) in
  List.length (dragListeners w) = 1%nat /\
  List.length (nodes (st w)) = 2%nat /\
  nodes (st w3) <> nodes (st w) /\
  (exists stale,
     history (st w3) = history (st w) ++ [stale] /\
     stale <> graphOf (st w) /\
     List.length (s_nodes stale) = 1%nat) /\
  nodes (st (step w3 TopbarUndo)) <> nodes (st w) /\
  List.length (nodes (st (step w3 TopbarUndo))) = 1%nat.
Proof.
  repeat apply conj; try (vm_compute; reflexivity);
    try (vm_compute; discriminate).
  exists {| s_nodes :=
              [ {| n_id := "node-0"; n_type := "default";
                   n_position := {| pos_x := 240; pos_y := 180 |};
                   n_data := {| label := "Start Node" |} |} ];
            s_edges := [] |}.
  repeat apply conj; try (vm_compute; reflexivity);
    vm_compute; discriminate.
Qed.

(** ** Further laws of undo and redo *)

Lemma handleUndo_then_handleRedo (w : World) :
  history (st w) <> [] ->
  handleRedo (st (handleUndo (st w) w)) (handleUndo (st w) w)
  = setSelectedNode None w.
Proof.
  intros Hne.
  destruct (snoc_cases (history (st w))) as [E | (past & prev & E)];
    [contradiction|].
  rewrite (handleUndo_snoc _ _ _ _ E).
  open_world w. subst. destruct prev as [pns pes]. simpl.
  now rewrite slice_init_snoc.
Qed.

(** X1. With a non-empty future stack, redo installs the first future
    entry as the graph, removes it from the future stack and appends the
    graph it replaced to the past stack; an undo right after it gives
    back nodes, edges and both stacks: only the selection is cleared. *)
Theorem redo_then_undo_restores_graph (w : World) :
  future (st w) <> [] ->
  exists next rest,
    future (st w) = next :: rest /\
    nodes (st (handleRedo (st w) w)) = s_nodes next /\
    edges (st (handleRedo (st w) w)) = s_edges next /\
    future (st (handleRedo (st w) w)) = rest /\
    history (st (handleRedo (st w) w)) = history (st w) ++ [graphOf (st w)] /\
    let w1 := handleRedo (st w) w in
    handleUndo (st w1) w1 = setSelectedNode None w.
Proof.
  intros Hne. destruct (future (st w)) as [|next rest] eqn:E; [contradiction|].
  exists next, rest. split; [reflexivity|].
  rewrite (handleRedo_cons _ _ _ _ E).
  open_world w. subst. destruct next as [nns nes]. simpl.
  repeat split.
  erewrite handleUndo_snoc by (simpl; reflexivity).
  simpl. now rewrite slice_init_snoc.
Qed.

Lemma redo_then_undo_restores_graph_witness :
  let w := run initialWorld
             [SidebarAddNode "default" 1000 800; TopbarUndo] in
  handleUndo (st (handleRedo (st w) w)) (handleRedo (st w) w)
  = setSelectedNode None w.
Proof.
  destruct (redo_then_undo_restores_graph
              (run initialWorld [SidebarAddNode "default" 1000 800; TopbarUndo]))
    as (next & rest & _ & _ & _ & _ & _ & H).
  - vm_compute. discriminate.
  - exact H.
Defined.

Lemma handleUndo_history_length (w : World) :
  history (st w) <> [] ->
  S (List.length (history (st (handleUndo (st w) w))))
  = List.length (history (st w)).
Proof.
  intros Hne.
  destruct (snoc_cases (history (st w))) as [E | (past & prev & E)];
    [contradiction|].
  rewrite (handleUndo_snoc _ _ _ _ E).
  open_world w. subst. rewrite slice_init_snoc, length_app. simpl. lia.
Qed.

(** Redo does not read the selection. *)
Lemma handleRedo_after_deselect (w : World) :
  future (st w) <> [] ->
  handleRedo (st (setSelectedNode None w)) (setSelectedNode None w)
  = handleRedo (st w) w.
Proof.
  intros Hne. destruct (future (st w)) as [|next rest] eqn:E; [contradiction|].
  rewrite (handleRedo_cons (st w) w next rest E).
  erewrite handleRedo_cons by (open_world w; subst; reflexivity).
  now open_world w.
Qed.

Lemma handleUndo_future_nonempty (w : World) :
  history (st w) <> [] -> future (st (handleUndo (st w) w)) <> [].
Proof.
  intros Hne.
  destruct (snoc_cases (history (st w))) as [E | (past & prev & E)];
    [contradiction|].
  rewrite (handleUndo_snoc _ _ _ _ E). open_world w. discriminate.
Qed.

Lemma repeat_snoc {A : Type} (a : A) (k : nat) :
  repeat a (S k) = repeat a k ++ [a].
Proof. induction k as [|k IH]; simpl in *; [reflexivity | now rewrite <- IH]. Qed.

Lemma run_app (w : World) (evs1 evs2 : list Event) :
  run w (evs1 ++ evs2) = run (run w evs1) evs2.
Proof. apply fold_left_app. Qed.

Lemma undo_redo_rounds (k : nat) : forall w,
  (k <= List.length (history (st w)))%nat ->
  run (run w (repeat TopbarUndo k)) (repeat TopbarRedo k)
  = match k with O => w | S _ => setSelectedNode None w end.
Proof.
  induction k as [|k IH]; intros w Hk; [reflexivity|].
  assert (Hne : history (st w) <> [])
    by (destruct (history (st w)); [simpl in Hk; lia | discriminate]).
  pose proof (handleUndo_history_length w Hne) as Hlen.
  rewrite (repeat_snoc TopbarRedo k), run_app.
  change (run w (repeat TopbarUndo (S k)))
    with (run (handleUndo (st w) w) (repeat TopbarUndo k)).
  rewrite IH by lia.
  change (run ?x [TopbarRedo]) with (handleRedo (st x) x).
  destruct k.
  - now apply handleUndo_then_handleRedo.
  - rewrite handleRedo_after_deselect
      by now apply handleUndo_future_nonempty.
    now apply handleUndo_then_handleRedo.
Qed.

(** X2. Undoing k times and then redoing k times, for any k up to the
    depth of the past stack, brings back the whole store: nodes, edges,
    both stacks, view and refs; only the selection is cleared. *)
Theorem undo_k_redo_k_restores (k : nat) (w : World) :
  (1 <= k)%nat ->
  (k <= List.length (history (st w)))%nat ->
  run (run w (repeat TopbarUndo k)) (repeat TopbarRedo k)
  = setSelectedNode None w.
Proof.
  intros H1 Hk. rewrite (undo_redo_rounds k w Hk).
  destruct k; [lia | reflexivity].
Qed.

Lemma undo_k_redo_k_restores_witness :
  let w := run initialWorld
             [SidebarAddNode "default" 1000 800;
              SidebarAddNode "default" 1000 800;
              SidebarAddNode "default" 1000 800] in
  run (run w (repeat TopbarUndo 3)) (repeat TopbarRedo 3)
  = setSelectedNode None w.
Proof.
  apply (undo_k_redo_k_restores 3
           (run initialWorld
              [SidebarAddNode "default" 1000 800;
               SidebarAddNode "default" 1000 800;
               SidebarAddNode "default" 1000 800])).
  - lia.
  - vm_compute. lia.
Defined.

(** X3. Undo inverts every recording event: with no drag listener left
    on [window], if an event makes the past stack grow (add node, label
    save, Delete, redo), one undo after it gives back the nodes, the
    edges and the past stack of the store the event arrived in. *)
Theorem undo_inverts_recorded_event (w : World) (ev : Event) :
  dragListeners w = [] ->
  (List.length (history (st w)) < List.length (history (st (step w ev))))%nat ->
  nodes (st (step (step w ev) TopbarUndo)) = nodes (st w) /\
  edges (st (step (step w ev) TopbarUndo)) = edges (st w) /\
  history (st (step (step w ev) TopbarUndo)) = history (st w).
Proof.
  intros Hls Hlen.
  destruct (step_history_cases w ev Hls) as [E | [E | E]].
  - rewrite E in Hlen. lia.
  - rewrite E in Hlen. pose proof (slice_init_length (history (st w))). lia.
  - remember (step w ev) as w' eqn:Hw'. clear Hw' Hlen.
    unfold step. rewrite (handleUndo_snoc _ _ _ _ E).
    open_world w'. subst. simpl. rewrite slice_init_snoc.
    now open_world w.
Qed.

Lemma undo_inverts_recorded_event_witness :
  let w := twoNodesOneEdge in
  let ev := WindowKeyDown {| ctrlKey := false; key := "Delete" |} false in
  edges (st (step w ev)) = [] /\
  nodes (st (step (step w ev) TopbarUndo)) = nodes (st w) /\
  edges (st (step (step w ev) TopbarUndo)) = edges (st w).
Proof.
  split; [reflexivity|].
  destruct (undo_inverts_recorded_event twoNodesOneEdge
              (WindowKeyDown {| ctrlKey := false; key := "Delete" |} false))
    as (Hn & He & _).
  - reflexivity.
  - vm_compute. lia.
  - split; [exact Hn | exact He].
Defined.

(** ** Events that leave the document alone *)

(** X4. Selecting, starting a drag or a connection, opening or closing
    the editor, panning, zooming, clicking the canvas, and any key
    pressed while a text input has the focus change neither the nodes
    nor the edges nor either stack. *)
Theorem view_events_keep_document (w : World) (ev : Event) :
  is_view_event ev = true ->
  nodes (st (step w ev)) = nodes (st w) /\
  edges (st (step w ev)) = edges (st w) /\
  history (st (step w ev)) = history (st w) /\
  future (st (step w ev)) = future (st w).
Proof.
  intros Hv. destruct ev; simpl in Hv; try discriminate; unfold step.
  - unfold handleNodeMouseDown.
    destruct (findNode id (nodes (st w))); now open_world w.
  - now open_world w.
  - unfold handleNodeDoubleClick. now open_world w.
  - now open_world w.
  - unfold handleCanvasMouseDown.
    destruct (negb (button e =? 1)%Z && onBackground); now open_world w.
  - now open_world w.
  - now open_world w.
  - subst activeIsInput. unfold handleKeyDown. now open_world w.
  - now open_world w.
Qed.

Lemma view_events_keep_document_witness :
  nodes (st (step twoNodesOneEdge (CanvasWheel (-3))))
  = nodes (st twoNodesOneEdge).
Proof.
  destruct (view_events_keep_document twoNodesOneEdge (CanvasWheel (-3)))
    as (Hn & _); [reflexivity | exact Hn].
Defined.

(** ** Node ids stay distinct, and no event creates an edge *)

Lemma generateId_injective (a b : nat) :
  fst (generateId a) = fst (generateId b) -> a = b.
Proof.
  unfold generateId. simpl. intros H. injection H as H.
  assert (Hu : Some (Nat.to_uint a) = Some (Nat.to_uint b)).
  { rewrite <- !NilEmpty.usu. now rewrite H. }
  injection Hu as Hu.
  rewrite <- (Unsigned.of_to a), <- (Unsigned.of_to b).
  now rewrite Hu.
Qed.

Lemma goodGraph_mono (c c' : nat) (s : Snapshot) :
  (c <= c')%nat -> goodGraph c s -> goodGraph c' s.
Proof.
  intros Hc (Hnd & Hid & He). repeat split; try assumption.
  intros n Hn. destruct (Hid n Hn) as (k & Hk & E). exists k. split; [lia|exact E].
Qed.

Lemma goodGraph_map (c : nat) (f : Node -> Node) ns es :
  (forall n, n_id (f n) = n_id n) ->
  goodGraph c {| s_nodes := ns; s_edges := es |} ->
  goodGraph c {| s_nodes := map f ns; s_edges := es |}.
Proof.
  intros Hf (Hnd & Hid & He). simpl in *. repeat split; simpl.
  - rewrite map_map. now rewrite (map_ext _ n_id Hf).
  - intros n' Hn'. apply in_map_iff in Hn' as (n & <- & Hn).
    rewrite Hf. now apply Hid.
  - exact He.
Qed.

(** Dropping nodes keeps the remaining ids distinct. *)
Lemma filter_keeps_ids_distinct (keep : Node -> bool) (ns : list Node) :
  NoDup (map n_id ns) -> NoDup (map n_id (filter keep ns)).
Proof.
  induction ns as [|n ns IH]; intros Hd; [constructor|].
  apply NoDup_cons_iff in Hd as [Hfresh Hd]. simpl filter.
  destruct (keep n); [|now apply IH].
  simpl map. apply NoDup_cons_iff. split; [|now apply IH].
  intros Hin. apply Hfresh.
  apply in_map_iff in Hin as (n' & Eid & Hn').
  apply filter_In in Hn' as [Hn' _].
  apply in_map_iff. now exists n'.
Qed.

Lemma goodGraph_filter (c : nat) p q ns es :
  goodGraph c {| s_nodes := ns; s_edges := es |} ->
  goodGraph c {| s_nodes := filter p ns; s_edges := filter q es |}.
Proof.
  intros (Hnd & Hid & He). simpl in *. repeat split; simpl.
  - now apply filter_keeps_ids_distinct.
  - intros n Hn. apply filter_In in Hn as [Hn _]. now apply Hid.
  - now rewrite He.
Qed.

Lemma goodGraph_add (c : nat) ns es ty pos dat :
  goodGraph c {| s_nodes := ns; s_edges := es |} ->
  goodGraph (S c)
    {| s_nodes := ns ++ [ {| n_id := fst (generateId c); n_type := ty;
                             n_position := pos; n_data := dat |} ];
       s_edges := es |}.
Proof.
  intros (Hnd & Hid & He). simpl in *. repeat split; simpl.
  - rewrite map_app. simpl. apply NoDup_app; [exact Hnd | |].
    + constructor; [intros [] | constructor].
    + intros i Hi [<- | []]. apply in_map_iff in Hi as (n & E & Hn).
      destruct (Hid n Hn) as (k & Hk & E').
      rewrite E' in E. apply generateId_injective in E. lia.
  - intros n Hn. apply in_app_iff in Hn as [Hn | [<- | []]].
    + destruct (Hid n Hn) as (k & Hk & E). exists k. split; [lia | exact E].
    + exists c. split; [lia | reflexivity].
  - exact He.
Qed.

Lemma In_slice_init {A : Type} (x : A) (h : list A) :
  In x (slice_init h) -> In x h.
Proof.
  destruct (snoc_cases h) as [-> | (h' & y & ->)]; [now simpl|].
  rewrite slice_init_snoc. intros H. apply in_app_iff. now left.
Qed.

Lemma Forall_mono_goodGraph (c c' : nat) (l : list Snapshot) :
  (c <= c')%nat -> Forall (goodGraph c) l -> Forall (goodGraph c') l.
Proof.
  intros Hc H. eapply Forall_impl; [|exact H].
  intros s. now apply goodGraph_mono.
Qed.

Ltac open_store w :=
  unfold goodStore, graphOf in *; open_world w.

Lemma goodStore_pushHistory env w :
  goodGraph (idCounter w) (graphOf env) -> goodStore w ->
  goodStore (pushHistory env w).
Proof.
  intros Henv (Hg & Hh & Hf & Hl). open_store w.
  repeat split; try assumption; try apply Hg.
  - apply Forall_app. split; [assumption|]. now constructor.
  - constructor.
Qed.

Lemma goodStore_map f w :
  (forall n, n_id (f n) = n_id n) -> goodStore w ->
  goodStore (setNodes (map f) w).
Proof.
  intros Hf (Hg & Hh & Hf' & Hl). open_store w.
  repeat split; try assumption; now apply (goodGraph_map _ f _ _ Hf Hg).
Qed.

Lemma goodStore_handleUndo w : goodStore w -> goodStore (handleUndo (st w) w).
Proof.
  intros H.
  destruct (snoc_cases (history (st w))) as [E | (past & prev & E)].
  - now rewrite handleUndo_empty.
  - rewrite (handleUndo_snoc _ _ _ _ E).
    destruct H as (Hg & Hh & Hf & Hl). open_store w. subst.
    rewrite slice_init_snoc.
    apply Forall_app in Hh as [Hp Hprev].
    inversion Hprev as [|? ? Hprev' _]; subst.
    destruct prev as [pns pes].
    repeat split; try assumption; try apply Hprev'.
    now constructor.
Qed.

Lemma goodStore_handleRedo w : goodStore w -> goodStore (handleRedo (st w) w).
Proof.
  intros H.
  destruct (future (st w)) as [|next rest] eqn:E.
  - now rewrite handleRedo_empty.
  - rewrite (handleRedo_cons _ _ _ _ E).
    destruct H as (Hg & Hh & Hf & Hl). open_store w. subst.
    inversion Hf as [|? ? Hnext Hrest]; subst.
    destruct next as [nns nes].
    repeat split; try assumption; try apply Hnext.
    apply Forall_app. split; [assumption|]. now constructor.
Qed.

Lemma goodStore_handleAddNode w ty iw ih :
  goodStore w -> goodStore (handleAddNode (st w) ty iw ih w).
Proof.
  intros (Hg & Hh & Hf & Hl). unfold handleAddNode. open_store w.
  split; [|split; [|split]].
  - apply (goodGraph_add _ _ _ ty _ _ Hg).
  - apply Forall_app. split.
    + eapply Forall_mono_goodGraph; [|exact Hh]. lia.
    + constructor; [|constructor]. eapply goodGraph_mono; [|exact Hg]. lia.
  - constructor.
  - eapply Forall_impl; [|exact Hl].
    intros env. apply goodGraph_mono. lia.
Qed.

Lemma goodStore_handleNodeDrag env e svgRect w :
  goodStore w -> goodStore (handleNodeDrag env e svgRect w).
Proof.
  intros H. unfold handleNodeDrag.
  destruct (negb (truthy (draggingNode w))); [exact H|].
  apply goodStore_map; [|exact H].
  intros n. now destruct (strict_eq (draggingNode w) (n_id n)).
Qed.

Lemma goodStore_fold_handleNodeDrag e svgRect ls : forall w,
  goodStore w ->
  goodStore (fold_left (fun w env => handleNodeDrag env e svgRect w) ls w).
Proof.
  induction ls as [|env ls IH]; intros w H; simpl; [exact H|].
  apply IH. now apply goodStore_handleNodeDrag.
Qed.

Lemma goodStore_fold_handleNodeMouseUp w :
  goodStore w ->
  goodStore (fold_left (fun w env => handleNodeMouseUp env w)
                       (dragListeners w) w).
Proof.
  intros H.
  destruct (fold_handleNodeMouseUp_cases (dragListeners w) w)
    as [E | (env & Hin & E)]; simpl in E; rewrite E; [exact H|].
  assert (Henv : goodGraph (idCounter w) (graphOf env)).
  { destruct H as (_ & _ & _ & Hl).
    rewrite Forall_forall in Hl. now apply Hl. }
  pose proof (goodStore_pushHistory env w Henv H) as Hp.
  assert (Hrem : Forall (fun env0 => goodGraph (idCounter w) (graphOf env0))
                        (removeListener env (dragListeners w))).
  { destruct H as (_ & _ & _ & Hl). rewrite Forall_forall in *.
    intros x Hx. apply in_remove in Hx as [Hx _]. now apply Hl. }
  clear E Henv H Hin.
  destruct Hp as (Hg & Hh & Hf & _).
  open_store w. repeat split; try assumption; apply Hg.
Qed.

Lemma goodStore_handleKeyDown w e a :
  goodStore w -> goodStore (handleKeyDown (st w) e a w).
Proof.
  intros H. unfold handleKeyDown.
  destruct a; [exact H|].
  destruct (ctrlKey e && String.eqb (key e) "z");
    [now apply goodStore_handleUndo|].
  destruct (ctrlKey e && String.eqb (key e) "y");
    [now apply goodStore_handleRedo|].
  destruct (String.eqb (key e) "Delete" && truthy (selectedNode (st w)));
    [|exact H].
  assert (Hst : goodGraph (idCounter w) (graphOf (st w))) by apply H.
  pose proof (goodStore_pushHistory (st w) w Hst H) as (Hg & Hh & Hf & Hl).
  clear H Hst. open_store w.
  repeat split; try assumption;
    now apply (goodGraph_filter _ _ _ _ _ Hg).
Qed.

Lemma goodStore_EditorSave w node newLabel :
  goodStore w -> goodStore (NodePropertiesEditor_save (st w) node newLabel w).
Proof.
  intros H. unfold NodePropertiesEditor_save, handleNodeUpdate.
  assert (Hst : goodGraph (idCounter w) (graphOf (st w))) by apply H.
  pose proof (goodStore_pushHistory (st w) w Hst H) as Hp.
  eapply (goodStore_map
            (fun n => if String.eqb (n_id n) (n_id node)
                      then {| n_id := n_id node; n_type := n_type node;
                              n_position := n_position node;
                              n_data := {| label := newLabel |} |}
                      else n)) in Hp.
  - clear H Hst. destruct Hp as (Hg & Hh & Hf & Hl).
    open_store w. repeat split; try assumption; apply Hg.
  - intros n. simpl. destruct (String.eqb (n_id n) (n_id node)) eqn:E;
      [|reflexivity].
    simpl. symmetry. now apply String.eqb_eq.
Qed.

Lemma Forall_addListener (P : Render -> Prop) env ls :
  Forall P ls -> P env -> Forall P (addListener env ls).
Proof.
  intros Hls Henv. unfold addListener.
  destruct (in_dec Render_eq_dec env ls); [exact Hls|].
  apply Forall_app. split; [exact Hls | now constructor].
Qed.

Lemma goodStore_step (w : World) (ev : Event) :
  goodStore w -> goodStore (step w ev).
Proof.
  intros H. destruct ev; unfold step.
  - now apply goodStore_handleAddNode.
  - now apply goodStore_handleUndo.
  - now apply goodStore_handleRedo.
  - unfold handleNodeMouseDown.
    destruct (findNode id (nodes (st w))).
    + destruct H as (Hg & Hh & Hf & Hl).
      open_store w; repeat split; try assumption; try apply Hg.
      apply Forall_addListener; assumption.
    + destruct H as (Hg & Hh & Hf & Hl).
      open_store w; repeat split; try assumption; apply Hg.
  - destruct H as (Hg & Hh & Hf & Hl).
    open_store w; repeat split; try assumption; apply Hg.
  - destruct H as (Hg & Hh & Hf & Hl). unfold handleNodeDoubleClick.
    open_store w; repeat split; try assumption; apply Hg.
  - destruct H as (Hg & Hh & Hf & Hl).
    open_store w; repeat split; try assumption; apply Hg.
  - destruct H as (Hg & Hh & Hf & Hl). unfold handleCanvasMouseDown.
    destruct (negb (button e =? 1)%Z && onBackground);
      open_store w; repeat split; try assumption; apply Hg.
  - destruct H as (Hg & Hh & Hf & Hl).
    open_store w; repeat split; try assumption; apply Hg.
  - destruct H as (Hg & Hh & Hf & Hl).
    open_store w; repeat split; try assumption; apply Hg.
  - pose proof (goodStore_fold_handleNodeDrag e svgRect (dragListeners w) w H)
      as (Hg & Hh & Hf & Hl).
    set (w' := fold_left _ _ _) in *. clearbody w'. clear H.
    unfold handleCanvasPanMove.
    destruct (negb (panning w'));
      open_store w'; repeat split; try assumption; apply Hg.
  - pose proof (goodStore_fold_handleNodeMouseUp w H) as (Hg & Hh & Hf & Hl).
    set (w' := fold_left _ _ _) in *. clearbody w'. clear H.
    open_store w'; repeat split; try assumption; apply Hg.
  - now apply goodStore_handleKeyDown.
  - destruct (editingNode (st w)); [|exact H].
    now apply goodStore_EditorSave.
  - destruct H as (Hg & Hh & Hf & Hl).
    open_store w; repeat split; try assumption; apply Hg.
Qed.

Lemma goodStore_initialWorld : goodStore initialWorld.
Proof.
  unfold goodStore. simpl. repeat split; try constructor.
  - intros [].
  - constructor.
  - intros n [<- | []]. exists 0%nat. split; [lia | reflexivity].
Qed.

Lemma goodStore_run (evs : list Event) : forall w,
  goodStore w -> goodStore (run w evs).
Proof.
  induction evs as [|ev evs IH]; intros w H; simpl; [exact H|].
  apply IH. now apply goodStore_step.
Qed.

(** X5. Node ids are never reused: after any sequence of events from the
    initial state, the ids of the nodes are pairwise distinct, also in
    every snapshot on the past and future stacks. *)
Theorem node_ids_stay_distinct (evs : list Event) :
  let w := run initialWorld evs in
  NoDup (map n_id (nodes (st w))) /\
  Forall (fun s => NoDup (map n_id (s_nodes s))) (history (st w)) /\
  Forall (fun s => NoDup (map n_id (s_nodes s))) (future (st w)).
Proof.
  pose proof (goodStore_run evs initialWorld goodStore_initialWorld)
    as (Hg & Hh & Hf & _).
  simpl. repeat split.
  - apply Hg.
  - eapply Forall_impl; [|exact Hh]. intros s Hs. apply Hs.
  - eapply Forall_impl; [|exact Hf]. intros s Hs. apply Hs.
Qed.

(** X6. No event creates an edge: [handleCompleteConnect] is bound to no
    element, so after any sequence of events from the initial state the
    edge list is still empty, as it is in every snapshot on the two
    stacks. *)
Theorem events_never_create_edges (evs : list Event) :
  let w := run initialWorld evs in
  edges (st w) = [] /\
  Forall (fun s => s_edges s = []) (history (st w)) /\
  Forall (fun s => s_edges s = []) (future (st w)).
Proof.
  pose proof (goodStore_run evs initialWorld goodStore_initialWorld)
    as (Hg & Hh & Hf & _).
  simpl. repeat split.
  - apply Hg.
  - eapply Forall_impl; [|exact Hh]. intros s Hs. apply Hs.
  - eapply Forall_impl; [|exact Hf]. intros s Hs. apply Hs.
Qed.

(** ** Panning *)

Lemma WindowMouseMove_panningFrom w0 e0 w e svgRect :
  panningFrom w0 e0 w ->
  let w' := step w (WindowMouseMove e svgRect) in
  panningFrom w0 e0 w' /\
  t_x (transform (st w')) = t_x (transform (st w0)) + (clientX e - clientX e0) /\
  t_y (transform (st w')) = t_y (transform (st w0)) + (clientY e - clientY e0).
Proof.
  intros (Hp & Hs & Hk). unfold step.
  rewrite (fold_handleNodeDrag_nodes_only e svgRect (dragListeners w) w).
  set (ns' := nodes _). clearbody ns'.
  unfold handleCanvasPanMove, panningFrom.
  open_world w. subst. simpl. repeat split; assumption.
Qed.

Lemma run_moves_panningFrom w0 e0 (moves : list (MouseEvent * DOMRect)) :
  forall w, panningFrom w0 e0 w ->
  panningFrom w0 e0
    (run w (map (fun m => WindowMouseMove (fst m) (snd m)) moves)).
Proof.
  induction moves as [|m moves IH]; intros w H; simpl; [exact H|].
  apply IH. now apply WindowMouseMove_panningFrom.
Qed.

(** X7. A pan started by pointer-down on the canvas background with any
    button but the middle one moves the view by the pointer's
    displacement since pointer-down: after any pointer-moves, the last
    one at [e1], the pan offset is the offset at pointer-down plus
    [e1 - e0], whatever the moves in between; k is unchanged.  After
    pointer-up, pointer-moves no longer change the transform. *)
Theorem pan_follows_pointer
    (w : World) (e0 e1 : MouseEvent) (svgRect1 : DOMRect)
    (moves : list (MouseEvent * DOMRect)) :
  button e0 <> 1%Z ->
  let w1 := step w (CanvasMouseDown e0 true) in
  let w2 := run w1 (map (fun m => WindowMouseMove (fst m) (snd m))
                        (moves ++ [(e1, svgRect1)])) in
  let w3 := step w2 WindowMouseUp in
  t_x (transform (st w2)) = t_x (transform (st w)) + (clientX e1 - clientX e0) /\
  t_y (transform (st w2)) = t_y (transform (st w)) + (clientY e1 - clientY e0) /\
  t_k (transform (st w2)) = t_k (transform (st w)) /\
  transform (st w3) = transform (st w2) /\
  forall e svgRect,
    transform (st (step w3 (WindowMouseMove e svgRect))) = transform (st w3).
Proof.
  intros Hb w1 w2 w3.
  assert (H1 : panningFrom w e0 w1).
  { subst w1. unfold step, handleCanvasMouseDown.
    apply Z.eqb_neq in Hb. rewrite Hb. simpl.
    unfold panningFrom. now open_world w. }
  assert (H2 : panningFrom w e0 w2 /\
               t_x (transform (st w2))
                 = t_x (transform (st w)) + (clientX e1 - clientX e0) /\
               t_y (transform (st w2))
                 = t_y (transform (st w)) + (clientY e1 - clientY e0)).
  { subst w2. rewrite map_app, run_app.
    apply (WindowMouseMove_panningFrom w e0 _ e1 svgRect1).
    now apply run_moves_panningFrom. }
  destruct H2 as ((_ & _ & Hk) & Hx & Hy).
  assert (H3 : transform (st w3) = transform (st w2) /\ panning w3 = false).
  { subst w3. unfold step.
    destruct (fold_handleNodeMouseUp_cases (dragListeners w2) w2)
      as [E | (env & _ & E)]; simpl in E; rewrite E; clear;
      now open_world w2. }
  destruct H3 as (Ht3 & Hp3).
  repeat apply conj; try assumption.
  intros e svgRect. unfold step.
  rewrite (fold_handleNodeDrag_nodes_only e svgRect (dragListeners w3) w3).
  set (ns' := nodes _). clearbody ns'.
  unfold handleCanvasPanMove. clear - Hp3.
  open_world w3. subst. reflexivity.
Qed.

Lemma pan_follows_pointer_witness :
  let w2 := run initialWorld
              [ CanvasMouseDown {| clientX := 5; clientY := 5; button := 0 |} true;
                WindowMouseMove {| clientX := 90; clientY := 2; button := 0 |}
                                {| left := 0; top := 0 |};
                WindowMouseMove {| clientX := 25; clientY := 45; button := 0 |}
                                {| left := 0; top := 0 |} ] in
  t_x (transform (st w2)) = 0 + (25 - 5) /\
  t_y (transform (st w2)) = 0 + (45 - 5).
Proof.
  destruct (pan_follows_pointer initialWorld
              {| clientX := 5; clientY := 5; button := 0 |}
              {| clientX := 25; clientY := 45; button := 0 |}
              {| left := 0; top := 0 |}
              [ ({| clientX := 90; clientY := 2; button := 0 |},
                 {| left := 0; top := 0 |}) ])
    as (Hx & Hy & _).
  - discriminate.
  - split; [exact Hx | exact Hy].
Defined.

(** ** More on zooming *)

Lemma clamp_low (a : Q) : a <= 0.2 -> Math_max 0.2 (Math_min 2.5 a) == 0.2.
Proof.
  intros Ha. unfold Math_max, Math_min.
  destruct (Qle_bool 2.5 a) eqn:E1.
  - apply Qle_bool_iff in E1. lra.
  - destruct (Qle_bool 0.2 a) eqn:E2; [|reflexivity].
    apply Qle_bool_iff in E2. lra.
Qed.

Lemma clamp_high (a : Q) : 2.5 <= a -> Math_max 0.2 (Math_min 2.5 a) == 2.5.
Proof.
  intros Ha. unfold Math_max, Math_min.
  destruct (Qle_bool 2.5 a) eqn:E1.
  - destruct (Qle_bool 0.2 2.5) eqn:E2; [reflexivity | discriminate].
  - apply Qle_bool_false in E1. lra.
Qed.

Lemma clamp_cases (a : Q) :
  (a <= 0.2 /\ Math_max 0.2 (Math_min 2.5 a) == 0.2) \/
  (0.2 <= a <= 2.5 /\ Math_max 0.2 (Math_min 2.5 a) == a) \/
  (2.5 <= a /\ Math_max 0.2 (Math_min 2.5 a) == 2.5).
Proof.
  destruct (Qlt_le_dec a 0.2) as [H1 | H1].
  - left. split; [lra | apply clamp_low; lra].
  - destruct (Qlt_le_dec 2.5 a) as [H2 | H2].
    + right; right. split; [lra | apply clamp_high; lra].
    + right; left. split; [lra | apply clamp_inside; lra].
Qed.

Lemma handleWheel_k (w : World) (deltaY : Q) :
  t_k (transform (st (step w (CanvasWheel deltaY))))
  = Math_max 0.2 (Math_min 2.5
      (t_k (transform (st w)) * (if Qlt_bool deltaY 0 then 1.08 else 0.92))).
Proof. unfold step, handleWheel. now open_world w. Qed.

(** X8. For a zoom factor within [0.2, 2.5], a zoom-in notch never
    lowers k and any other notch never raises it; at the bounds the
    factor stays put (zoom-out at 0.2, zoom-in at 2.5).  A zoom-in notch
    followed by a zoom-out notch does not give k back: while no clamp
    applies the result is 0.9936 k. *)
Theorem wheel_zoom_monotone (w : World) (dIn dOut : Q) :
  0.2 <= t_k (transform (st w)) <= 2.5 ->
  dIn < 0 -> ~ dOut < 0 ->
  let k := t_k (transform (st w)) in
  let kIn := t_k (transform (st (step w (CanvasWheel dIn)))) in
  let kOut := t_k (transform (st (step w (CanvasWheel dOut)))) in
  let kInOut :=
    t_k (transform (st (run w [CanvasWheel dIn; CanvasWheel dOut]))) in
  k <= kIn /\
  kOut <= k /\
  (k == 0.2 -> kOut == 0.2) /\
  (k == 2.5 -> kIn == 2.5) /\
  (k * 1.08 <= 2.5 -> 0.2 <= k * 1.08 * 0.92 -> kInOut == k * 0.9936).
Proof.
  intros Hk Hin Hout k kIn kOut kInOut. subst k kIn kOut kInOut.
  apply Qlt_bool_iff in Hin.
  assert (Hout' : Qlt_bool dOut 0 = false).
  { destruct (Qlt_bool dOut 0) eqn:E; [|reflexivity].
    apply Qlt_bool_iff in E. contradiction. }
  change (run w [CanvasWheel dIn; CanvasWheel dOut])
    with (step (step w (CanvasWheel dIn)) (CanvasWheel dOut)).
  rewrite !handleWheel_k. rewrite Hin, Hout'.
  set (k := t_k (transform (st w))) in *.
  destruct (clamp_cases (k * 1.08)) as [[H E] | [[H E] | [H E]]];
    destruct (clamp_cases (k * 0.92)) as [[H' E'] | [[H' E'] | [H' E']]];
    try lra;
    (repeat apply conj; [lra | lra | intros; lra | intros; lra |]);
    intros Hhi Hlo;
    set (k1 := Math_max 0.2 (Math_min 2.5 (k * 1.08))) in *;
    destruct (clamp_cases (k1 * 0.92)) as [[G F] | [[G F] | [G F]]]; lra.
Qed.

Lemma wheel_zoom_monotone_witness :
  t_k (transform (st (run initialWorld [CanvasWheel (-1); CanvasWheel 1])))
  == t_k (transform (st initialWorld)) * 0.9936.
Proof.
  destruct (wheel_zoom_monotone initialWorld (-1) 1)
    as (_ & _ & _ & _ & H).
  - vm_compute. split; discriminate.
  - reflexivity.
  - intros C. vm_compute in C. discriminate.
  - apply H; vm_compute; discriminate.
Defined.

(** ** Adding a node *)

(** X9. The Sidebar button appends exactly one node: it has the
    requested type and the label "New Node", and its logical position is
    such that the drawing group shows it at
    (0.6 innerWidth - 100, 0.4 innerHeight - 50) from the svg corner
    whatever the pan offset and the zoom factor.  The nodes already
    there and the edges are kept, and the graph before the addition is
    recorded. *)
Theorem added_node_lands_at_fixed_spot
    (w : World) (type : string) (innerWidth innerHeight : Q) :
  0.2 <= t_k (transform (st w)) <= 2.5 ->
  let w' := step w (SidebarAddNode type innerWidth innerHeight) in
  exists node,
    nodes (st w') = nodes (st w) ++ [node] /\
    n_type node = type /\
    label (n_data node) = "New Node"%string /\
    pos_x (toScreen (transform (st w)) {| left := 0; top := 0 |}
                    (n_position node)) == innerWidth * 0.6 - 100 /\
    pos_y (toScreen (transform (st w)) {| left := 0; top := 0 |}
                    (n_position node)) == innerHeight * 0.4 - 50 /\
    edges (st w') = edges (st w) /\
    history (st w') = history (st w) ++ [graphOf (st w)].
Proof.
  intros Hk w'. subst w'. apply zoom_range_nonzero in Hk.
  unfold step, handleAddNode. open_world w.
  eexists. split; [reflexivity|].
  repeat apply conj; try reflexivity; simpl; field; exact Hk.
Qed.

Lemma added_node_lands_at_fixed_spot_witness :
  exists node,
    nodes (st (step pannedWorld (SidebarAddNode "default" 1000 800)))
      = nodes (st pannedWorld) ++ [node] /\
    n_type node = "default"%string /\
    pos_x (toScreen (transform (st pannedWorld)) {| left := 0; top := 0 |}
                    (n_position node)) == 1000 * 0.6 - 100.
Proof.
  destruct (added_node_lands_at_fixed_spot pannedWorld "default" 1000 800)
    as (node & Hn & Hty & _ & Hx & _).
  - vm_compute. split; discriminate.
  - exists node. repeat split; assumption.
Defined.

(** ** Editing a label *)

Lemma findNode_Some (id : string) (ns : list Node) (node : Node) :
  findNode id ns = Some node -> In node ns /\ n_id node = id.
Proof.
  intros H. apply find_some in H as [Hin E].
  split; [exact Hin | now apply String.eqb_eq].
Qed.

(** X10. Double-click on an existing node opens the editor on a copy of
    it; Save then replaces every node carrying that id by the copy with
    the new label (so type and position are those of the copy), leaves
    all other nodes, the order of the list and the edges as they are,
    records the graph from before the save and closes the editor. *)
Theorem label_save_replaces_node
    (w : World) (id : string) (node : Node) (newLabel : string) :
  findNode id (nodes (st w)) = Some node ->
  let w1 := step w (NodeDoubleClick id) in
  let w2 := step w1 (EditorSave newLabel) in
  let saved := {| n_id := n_id node; n_type := n_type node;
                  n_position := n_position node;
                  n_data := {| label := newLabel |} |} in
  editingNode (st w1) = Some node /\
  editingNode (st w2) = None /\
  In saved (nodes (st w2)) /\
  map n_id (nodes (st w2)) = map n_id (nodes (st w)) /\
  (forall n, In n (nodes (st w2)) -> n_id n = id -> n = saved) /\
  (forall n, n_id n <> id -> (In n (nodes (st w2)) <-> In n (nodes (st w)))) /\
  edges (st w2) = edges (st w) /\
  history (st w2) = history (st w) ++ [graphOf (st w)].
Proof.
  intros Hfind w1 w2 saved.
  destruct (findNode_Some _ _ _ Hfind) as (Hin & Hid).
  assert (E1 : editingNode (st w1) = Some node).
  { subst w1. unfold step, handleNodeDoubleClick. rewrite Hfind.
    now open_world w. }
  assert (Hw1 : nodes (st w1) = nodes (st w) /\ edges (st w1) = edges (st w) /\
                history (st w1) = history (st w))
    by (subst w1; unfold step, handleNodeDoubleClick; now open_world w).
  destruct Hw1 as (Hn1 & He1 & Hh1).
  assert (Hw2 : nodes (st w2)
                = map (fun n => if String.eqb (n_id n) (n_id node)
                                then saved else n) (nodes (st w1)) /\
                edges (st w2) = edges (st w1) /\
                history (st w2) = history (st w1) ++ [graphOf (st w1)] /\
                editingNode (st w2) = None).
  { subst w2. unfold step. rewrite E1.
    unfold NodePropertiesEditor_save, handleNodeUpdate.
    clear. now open_world w1. }
  destruct Hw2 as (Hn2 & He2 & Hh2 & Hed2).
  rewrite Hn1 in Hn2. clearbody w1 w2.
  repeat apply conj.
  - exact E1.
  - exact Hed2.
  - rewrite Hn2. apply in_map_iff. exists node. split; [|exact Hin].
    now rewrite String.eqb_refl.
  - rewrite Hn2, map_map. apply map_ext. intros n.
    destruct (String.eqb (n_id n) (n_id node)) eqn:E; [|reflexivity].
    simpl. symmetry. now apply String.eqb_eq.
  - intros n Hn Hnid. rewrite Hn2 in Hn.
    apply in_map_iff in Hn as (n0 & E & Hn0).
    destruct (String.eqb (n_id n0) (n_id node)) eqn:E0; [now symmetry|].
    apply String.eqb_neq in E0. subst n. congruence.
  - intros n Hnid. rewrite Hn2. split.
    + intros Hn. apply in_map_iff in Hn as (n0 & E & Hn0).
      destruct (String.eqb (n_id n0) (n_id node)) eqn:E0.
      * subst n. simpl in Hnid. congruence.
      * now subst n.
    + intros Hn. apply in_map_iff. exists n. split; [|exact Hn].
      destruct (String.eqb (n_id n) (n_id node)) eqn:E0; [|reflexivity].
      apply String.eqb_eq in E0. congruence.
  - now rewrite He2.
  - rewrite Hh2, Hh1. unfold graphOf. now rewrite Hn1, He1.
Qed.

Lemma label_save_replaces_node_witness :
  map (fun n => label (n_data n))
      (nodes (st (run initialWorld
                    [NodeDoubleClick "node-0"; EditorSave "Begin"])))
  = ["Begin"%string] /\
  editingNode (st (run initialWorld
                     [NodeDoubleClick "node-0"; EditorSave "Begin"])) = None.
Proof.
  split; [reflexivity|].
  destruct (label_save_replaces_node initialWorld "node-0"
              {| n_id := "node-0"; n_type := "default";
                 n_position := {| pos_x := 220; pos_y := 170 |};
                 n_data := {| label := "Start Node" |} |} "Begin")
    as (_ & H & _); [reflexivity | exact H].
Defined.

(** ** Completing a connection between two nodes *)

(** X11. [handleCompleteConnect] never introduces a self-loop: whatever
    the render and the target, an edge list without self-loops stays
    without.  When a connection is in progress from [c] and the target
    differs from [c], it appends exactly the edge from [c] to the target
    with id "e-<c>-<target>", even if such an edge exists already,
    records the graph of its render, empties the future stack and ends
    the connection; run in the latest render, one undo takes the edge
    away again. *)
Theorem complete_connect_adds_one_edge
    (env : Render) (w : World) (c targetId : string) :
  noSelfLoop (edges (st w)) ->
  connecting env = Some c -> c <> EmptyString -> c <> targetId ->
  let w' := handleCompleteConnect env targetId w in
  edges (st w')
  = edges (st w) ++ [ {| e_from := c; e_to := targetId;
                         e_id := ("e-" ++ c ++ "-" ++ targetId)%string |} ] /\
  noSelfLoop (edges (st w')) /\
  (forall env' t', noSelfLoop (edges (st (handleCompleteConnect env' t' w)))) /\
  nodes (st w') = nodes (st w) /\
  history (st w') = history (st w) ++ [graphOf env] /\
  future (st w') = [] /\
  connecting (st w') = None /\
  (env = st w ->
   nodes (st (handleUndo (st w') w')) = nodes (st w) /\
   edges (st (handleUndo (st w') w')) = edges (st w)).
Proof.
  intros Hloops Hc Hne Hdiff w'.
  assert (Hall : forall env' t',
            noSelfLoop (edges (st (handleCompleteConnect env' t' w)))).
  { intros env' t'. unfold handleCompleteConnect.
    destruct (truthy (connecting env')
              && negb (strict_eq (connecting env') t')) eqn:G.
    - destruct (connecting env') as [c'|] eqn:Ec; [|now open_world w].
      apply andb_true_iff in G as [_ G]. apply negb_true_iff in G.
      simpl in G. apply String.eqb_neq in G.
      revert Hloops. unfold noSelfLoop. open_world w. intros Hloops ed Hin.
      apply in_app_iff in Hin as [Hin | [<- | []]]; [now apply Hloops|].
      exact G.
    - now open_world w. }
  assert (Hw' : w' = setConnecting None
                  (setEdges (fun e => e ++ [ {| e_from := c; e_to := targetId;
                       e_id := ("e-" ++ c ++ "-" ++ targetId)%string |} ])
                     (pushHistory env w))).
  { subst w'. unfold handleCompleteConnect. rewrite Hc.
    rewrite (truthy_Some _ Hne). simpl strict_eq.
    apply String.eqb_neq in Hdiff. now rewrite Hdiff. }
  assert (Hh : history (st w') = history (st w) ++ [graphOf env])
    by (rewrite Hw'; clear; now open_world w).
  repeat apply conj.
  - rewrite Hw'. clear. now open_world w.
  - apply (Hall env targetId).
  - exact Hall.
  - rewrite Hw'. clear. now open_world w.
  - exact Hh.
  - rewrite Hw'. clear. now open_world w.
  - rewrite Hw'. clear. now open_world w.
  - intros ->. rewrite (handleUndo_snoc _ _ _ _ Hh).
    clear. now open_world w'.
Qed.

Lemma complete_connect_adds_one_edge_witness :
  let w := handleStartConnect "node-0"
             (step initialWorld (SidebarAddNode "default" 1000 800)) in
  map e_id (edges (st (handleCompleteConnect (st w) "node-1"
                         (handleCompleteConnect (st w) "node-1" w))))
  = ["e-node-0-node-1"%string; "e-node-0-node-1"%string] /\
  edges (st (handleCompleteConnect (st w) "node-1" w))
  = edges (st w) ++ [ {| e_from := "node-0"; e_to := "node-1";
                         e_id := "e-node-0-node-1" |} ].
Proof.
  split; [reflexivity|].
  destruct (complete_connect_adds_one_edge
              (st (handleStartConnect "node-0"
                     (step initialWorld (SidebarAddNode "default" 1000 800))))
              (handleStartConnect "node-0"
                 (step initialWorld (SidebarAddNode "default" 1000 800)))
              "node-0" "node-1")
    as (H & _).
  - intros ed [].
  - reflexivity.
  - discriminate.
  - discriminate.
  - exact H.
Defined.

(** ** The path of a drag *)

Lemma handleNodeDrag_nodes env e svgRect w :
  nodes (st (handleNodeDrag env e svgRect w))
  = map (placeDragged env (draggingNode w) (dragStartOffset w) e svgRect)
        (nodes (st w)).
Proof.
  unfold handleNodeDrag, placeDragged.
  destruct (truthy (draggingNode w)); simpl.
  - now open_world w.
  - symmetry. now apply map_fix.
Qed.

Lemma placeDragged_id env dn off e svgRect n :
  n_id (placeDragged env dn off e svgRect n) = n_id n.
Proof.
  unfold placeDragged. now destruct (truthy dn && strict_eq dn (n_id n)).
Qed.

Lemma placeDragged_data env dn off e svgRect n :
  n_data (placeDragged env dn off e svgRect n) = n_data n /\
  n_type (placeDragged env dn off e svgRect n) = n_type n.
Proof.
  unfold placeDragged. now destruct (truthy dn && strict_eq dn (n_id n)).
Qed.

(** A later tick overwrites an earlier one. *)
Lemma placeDragged_twice env dn off e1 r1 e2 r2 n :
  placeDragged env dn off e2 r2 (placeDragged env dn off e1 r1 n)
  = placeDragged env dn off e2 r2 n.
Proof.
  unfold placeDragged.
  destruct (truthy dn && strict_eq dn (n_id n)) eqn:E; simpl; now rewrite E.
Qed.

Lemma WindowMouseMove_draggingWith env dn off w e svgRect :
  draggingWith env dn off w ->
  draggingWith env dn off (step w (WindowMouseMove e svgRect)) /\
  nodes (st (step w (WindowMouseMove e svgRect)))
  = map (placeDragged env dn off e svgRect) (nodes (st w)).
Proof.
  intros (Hl & Hd & Ho). unfold step. rewrite Hl. simpl fold_left.
  pose proof (handleNodeDrag_nodes env e svgRect w) as Hn.
  rewrite Hd, Ho in Hn.
  rewrite (handleNodeDrag_nodes_only env e svgRect w). rewrite Hn.
  unfold handleCanvasPanMove, draggingWith.
  match goal with |- context [if ?c then _ else _] => destruct c end;
    open_world w; repeat split; assumption.
Qed.

Lemma run_moves_draggingWith env dn off
    (moves : list (MouseEvent * DOMRect)) (e : MouseEvent) (svgRect : DOMRect) :
  forall w, draggingWith env dn off w ->
  nodes (st (run w (map (fun m => WindowMouseMove (fst m) (snd m))
                        (moves ++ [(e, svgRect)]))))
  = map (placeDragged env dn off e svgRect) (nodes (st w)).
Proof.
  induction moves as [|m moves IH]; intros w H.
  - apply (WindowMouseMove_draggingWith env dn off w e svgRect H).
  - destruct (WindowMouseMove_draggingWith env dn off w (fst m) (snd m) H)
      as (H' & Hn).
    change (run w (map _ ((m :: moves) ++ [(e, svgRect)])))
      with (run (step w (WindowMouseMove (fst m) (snd m)))
                (map (fun m => WindowMouseMove (fst m) (snd m))
                     (moves ++ [(e, svgRect)]))).
    rewrite (IH _ H'), Hn, map_map.
    apply map_ext. intros n. apply placeDragged_twice.
Qed.

(** X12. During a drag the node list depends only on the latest pointer
    position: whatever pointer-moves came before, after a move at [e]
    the nodes are what that move alone would have made of the nodes at
    pointer-down.  A drag keeps the ids, types and labels of all nodes
    and their order, and every node with another id as it was. *)
Theorem drag_depends_on_last_pointer
    (w0 : World) (e0 : MouseEvent) (svgRect0 : DOMRect) (id : string)
    (moves : list (MouseEvent * DOMRect)) (e : MouseEvent)
    (svgRect : DOMRect) :
  dragListeners w0 = [] ->
  findNode id (nodes (st w0)) <> None ->
  let w1 := step w0 (NodeMouseDown e0 svgRect0 id) in
  let move := fun m => WindowMouseMove (fst m) (snd m) in
  let w2 := run w1 (map move (moves ++ [(e, svgRect)])) in
  nodes (st w2) = nodes (st (step w1 (WindowMouseMove e svgRect))) /\
  map n_id (nodes (st w2)) = map n_id (nodes (st w0)) /\
  map n_type (nodes (st w2)) = map n_type (nodes (st w0)) /\
  map n_data (nodes (st w2)) = map n_data (nodes (st w0)) /\
  (forall n, n_id n <> id -> (In n (nodes (st w2)) <-> In n (nodes (st w0)))).
Proof.
  intros Hls Hfind w1 move w2.
  destruct (findNode id (nodes (st w0))) as [node|] eqn:Ef; [|contradiction].
  assert (H1 : draggingWith (st w0) (Some id) (dragStartOffset w1) w1 /\
               nodes (st w1) = nodes (st w0)).
  { subst w1. unfold step, handleNodeMouseDown. rewrite Ef.
    unfold draggingWith. clear Ef Hfind. open_world w0. subst.
    repeat split; reflexivity. }
  destruct H1 as (H1 & Hn1).
  set (off := dragStartOffset w1) in *.
  set (place := placeDragged (st w0) (Some id) off e svgRect).
  assert (Hn2 : nodes (st w2) = map place (nodes (st w0))).
  { subst w2 move. unfold place. rewrite <- Hn1.
    now apply run_moves_draggingWith. }
  assert (Hone : nodes (st (step w1 (WindowMouseMove e svgRect)))
                 = map place (nodes (st w0))).
  { unfold place. rewrite <- Hn1.
    apply (WindowMouseMove_draggingWith _ _ _ w1 e svgRect H1). }
  clearbody off. clearbody w1 w2.
  repeat apply conj.
  - now rewrite Hn2, Hone.
  - rewrite Hn2, map_map. apply map_ext. intros n. unfold place.
    apply placeDragged_id.
  - rewrite Hn2, map_map. apply map_ext. intros n. unfold place.
    apply placeDragged_data.
  - rewrite Hn2, map_map. apply map_ext. intros n. unfold place.
    apply placeDragged_data.
  - intros n Hnid. rewrite Hn2. unfold place. split.
    + intros Hin. apply in_map_iff in Hin as (n0 & E & Hn0).
      unfold placeDragged in E.
      destruct (truthy (Some id) && strict_eq (Some id) (n_id n0)) eqn:G.
      * subst n. simpl in Hnid. apply andb_true_iff in G as [_ G].
        simpl in G. apply String.eqb_eq in G. congruence.
      * now subst n.
    + intros Hin. apply in_map_iff. exists n. split; [|exact Hin].
      unfold placeDragged.
      destruct (truthy (Some id) && strict_eq (Some id) (n_id n)) eqn:G;
        [|reflexivity].
      apply andb_true_iff in G as [_ G].
      simpl in G. apply String.eqb_eq in G. congruence.
Qed.

Lemma drag_depends_on_last_pointer_witness :
  let down := NodeMouseDown {| clientX := 300; clientY := 200; button := 0 |}
                            {| left := 0; top := 0 |} "node-0" in
  let far := WindowMouseMove {| clientX := 900; clientY := 10; button := 0 |}
                             {| left := 0; top := 0 |} in
  let last := WindowMouseMove {| clientX := 340; clientY := 225; button := 0 |}
                              {| left := 0; top := 0 |} in
  nodes (st (run initialWorld [down; far; last]))
  = nodes (st (run initialWorld [down; last])).
Proof.
  destruct (drag_depends_on_last_pointer initialWorld
              {| clientX := 300; clientY := 200; button := 0 |}
              {| left := 0; top := 0 |} "node-0"
              [ ({| clientX := 900; clientY := 10; button := 0 |},
                 {| left := 0; top := 0 |}) ]
              {| clientX := 340; clientY := 225; button := 0 |}
              {| left := 0; top := 0 |}) as (H & _).
  - reflexivity.
  - vm_compute. discriminate.
  - exact H.
Defined.

(** ** Deleting keeps the drawing whole *)

Lemma findNode_filter_other (x sel : string) (ns : list Node) :
  x <> sel ->
  findNode x (filter (fun node => negb (String.eqb sel (n_id node))) ns)
  = findNode x ns.
Proof.
  intros Hx. unfold findNode.
  induction ns as [|n ns IH]; simpl; [reflexivity|].
  destruct (String.eqb sel (n_id n)) eqn:E; simpl.
  - apply String.eqb_eq in E.
    destruct (String.eqb (n_id n) x) eqn:E'; [|exact IH].
    apply String.eqb_eq in E'. congruence.
  - destruct (String.eqb (n_id n) x); [reflexivity | exact IH].
Qed.

(** X13. The Delete key leaves no dangling edge behind: every edge that
    remains after deleting the selected node is drawn exactly as before,
    so if every edge had both endpoints before, every remaining edge
    still has. *)
Theorem delete_keeps_remaining_edges_drawn
    (w : World) (e : KeyboardEvent) (id : string) :
  key e = "Delete"%string ->
  selectedNode (st w) = Some id ->
  id <> EmptyString ->
  let w' := step w (WindowKeyDown e false) in
  (forall ed, In ed (edges (st w')) ->
     renderEdge (nodes (st w')) ed = renderEdge (nodes (st w)) ed) /\
  ((forall ed, In ed (edges (st w)) -> renderEdge (nodes (st w)) ed <> None) ->
   forall ed, In ed (edges (st w')) -> renderEdge (nodes (st w')) ed <> None).
Proof.
  intros Hk Hs Hne w'.
  assert (Hsame : forall ed, In ed (edges (st w')) ->
            In ed (edges (st w)) /\
            renderEdge (nodes (st w')) ed = renderEdge (nodes (st w)) ed).
  { subst w'. unfold step.
    rewrite (handleKeyDown_Delete _ _ _ _ Hk Hs Hne).
    clear Hs. open_world w. intros ed Hin.
    apply filter_In in Hin as [Hin Hf].
    apply andb_true_iff in Hf as [Hf Ht].
    apply eqb_false_neq in Hf. apply eqb_false_neq in Ht.
    split; [exact Hin|].
    unfold renderEdge. now rewrite !findNode_filter_other. }
  split.
  - intros ed Hin. now apply Hsame.
  - intros Hall ed Hin. destruct (Hsame ed Hin) as [Hin0 ->]. now apply Hall.
Qed.

Lemma delete_keeps_remaining_edges_drawn_witness :
  let w := setSelectedNode (Some "node-2"%string)
             (step twoNodesOneEdge (SidebarAddNode "default" 900 700)) in
  let w' := step w (WindowKeyDown {| ctrlKey := false; key := "Delete" |}
                                  false) in
  map e_id (edges (st w')) = ["e-node-0-node-1"%string] /\
  forall ed, In ed (edges (st w')) ->
    renderEdge (nodes (st w')) ed = renderEdge (nodes (st w)) ed.
Proof.
  split; [reflexivity|].
  destruct (delete_keeps_remaining_edges_drawn
              (setSelectedNode (Some "node-2"%string)
                 (step twoNodesOneEdge (SidebarAddNode "default" 900 700)))
              {| ctrlKey := false; key := "Delete" |} "node-2") as (H & _).
  - reflexivity.
  - reflexivity.
  - discriminate.
  - exact H.
Defined.

(** ** Undoing everything *)

Lemma handleUndo_last (w : World) past prev :
  history (st w) = past ++ [prev] ->
  let w1 := handleUndo (st w) w in
  history (st w1) = past /\
  nodes (st w1) = s_nodes prev /\
  edges (st w1) = s_edges prev /\
  List.length (future (st w1)) = S (List.length (future (st w))).
Proof.
  intros E. simpl. rewrite (handleUndo_snoc _ _ _ _ E).
  open_world w. subst. now rewrite slice_init_snoc.
Qed.

Lemma undo_all_aux (n : nat) : forall w first,
  List.length (history (st w)) = S n ->
  hd_error (history (st w)) = Some first ->
  let w' := run w (repeat TopbarUndo (S n)) in
  history (st w') = [] /\
  nodes (st w') = s_nodes first /\
  edges (st w') = s_edges first /\
  List.length (future (st w')) = (List.length (future (st w)) + S n)%nat.
Proof.
  induction n as [|n IH]; intros w first Hlen Hhd.
  - destruct (history (st w)) as [|s [|s' h]] eqn:E; try discriminate.
    injection Hhd as ->.
    destruct (handleUndo_last w [] first E) as (Hh & Hn & He & Hf).
    simpl. repeat split; try assumption. rewrite Hf. lia.
  - destruct (snoc_cases (history (st w))) as [E | (past & prev & E)];
      [rewrite E in Hlen; discriminate|].
    destruct (handleUndo_last w past prev E) as (Hh & Hn & He & Hf).
    assert (Hlen' : List.length past = S n).
    { rewrite E, length_app in Hlen. simpl in Hlen. lia. }
    assert (Hhd' : hd_error past = Some first).
    { rewrite E in Hhd. destruct past; [discriminate | exact Hhd]. }
    change (run w (repeat TopbarUndo (S (S n))))
      with (run (handleUndo (st w) w) (repeat TopbarUndo (S n))).
    rewrite <- Hh in Hlen', Hhd'.
    destruct (IH _ first Hlen' Hhd') as (H1 & H2 & H3 & H4).
    repeat split; try assumption. rewrite H4, Hf. lia.
Qed.

(** X14. Undoing as many times as the past stack is deep empties it and
    installs its oldest snapshot as the graph; every undone state is on
    the future stack, and a further undo changes nothing. *)
Theorem undo_all_reaches_oldest_snapshot (w : World) (first : Snapshot) :
  hd_error (history (st w)) = Some first ->
  let w' := run w (repeat TopbarUndo (List.length (history (st w)))) in
  history (st w') = [] /\
  nodes (st w') = s_nodes first /\
  edges (st w') = s_edges first /\
  List.length (future (st w'))
  = (List.length (future (st w)) + List.length (history (st w)))%nat /\
  step w' TopbarUndo = w'.
Proof.
  intros Hhd.
  destruct (List.length (history (st w))) as [|n] eqn:Hlen.
  - destruct (history (st w)); discriminate.
  - destruct (undo_all_aux n w first Hlen Hhd) as (H1 & H2 & H3 & H4).
    simpl. repeat split; try assumption.
    now apply handleUndo_empty.
Qed.

Lemma undo_all_reaches_oldest_snapshot_witness :
  let w := run initialWorld
             [SidebarAddNode "default" 1000 800;
              SidebarAddNode "default" 1000 800] in
  nodes (st (run w (repeat TopbarUndo (List.length (history (st w))))))
  = nodes (st initialWorld).
Proof.
  destruct (undo_all_reaches_oldest_snapshot
              (run initialWorld
                 [SidebarAddNode "default" 1000 800;
                  SidebarAddNode "default" 1000 800])
              (graphOf (st initialWorld))) as (_ & H & _).
  - reflexivity.
  - exact H.
Defined.

(** ** A click on a node *)

(** X15. With no drag listener left over on [window], pointer-down and
    pointer-up on an existing node with a non-empty id, without any
    pointer-move in between, still record a snapshot: the nodes and
    edges stay as they are, the past stack grows by the current graph,
    and the future stack is emptied, so nothing is left to redo. *)
Theorem click_on_node_records_snapshot
    (w : World) (e : MouseEvent) (svgRect : DOMRect) (id : string) :
  dragListeners w = [] ->
  id <> EmptyString ->
  findNode id (nodes (st w)) <> None ->
  let w' := run w [NodeMouseDown e svgRect id; WindowMouseUp] in
  nodes (st w') = nodes (st w) /\
  edges (st w') = edges (st w) /\
  history (st w') = history (st w) ++ [graphOf (st w)] /\
  future (st w') = [] /\
  step w' TopbarRedo = w'.
Proof.
  intros Hls Hid Hfind w'.
  pose proof (handleNodeMouseDown_dragging w e svgRect id Hls Hfind) as H1.
  destruct (WindowMouseUp_dragging w id _ Hid H1)
    as (Hh & Hf & Hn & He & _).
  change (step (step w (NodeMouseDown e svgRect id)) WindowMouseUp)
    with w' in Hh, Hf, Hn, He.
  assert (Hn1 : nodes (st (step w (NodeMouseDown e svgRect id))) = nodes (st w)).
  { unfold step, handleNodeMouseDown.
    destruct (findNode id (nodes (st w))); now open_world w. }
  repeat apply conj; try assumption.
  - now rewrite Hn.
  - unfold step. now apply handleRedo_empty.
Qed.

Lemma click_on_node_records_snapshot_witness :
  let w := run initialWorld
             [SidebarAddNode "default" 1000 800; TopbarUndo] in
  let w' := run w [NodeMouseDown {| clientX := 230; clientY := 180; button := 0 |}
                                 {| left := 0; top := 0 |} "node-0";
                   WindowMouseUp] in
  List.length (future (st w)) = 1%nat /\ future (st w') = [].
Proof.
  split; [reflexivity|].
  destruct (click_on_node_records_snapshot
              (run initialWorld [SidebarAddNode "default" 1000 800; TopbarUndo])
              {| clientX := 230; clientY := 180; button := 0 |}
              {| left := 0; top := 0 |} "node-0") as (_ & _ & _ & H & _).
  - reflexivity.
  - discriminate.
  - vm_compute. discriminate.
  - exact H.
Defined.

(** ** Unknown ids on the stores the events produce *)

(** C8. On every store that a sequence of events produces from the
    initial state, for every id that no node has: a move by
    [handleDragNode] (and a drag tick of [handleNodeDrag] on that id), a
    label save by [handleNodeUpdate] and the Delete key with that id
    selected all leave the node list and the edge list unchanged. *)
Theorem unknown_id_leaves_model_unchanged (evs : list Event) (id : string) :
  let w := run initialWorld evs in
  (forall n, In n (nodes (st w)) -> n_id n <> id) ->
  (forall dx dy,
     nodes (st (handleDragNode id dx dy w)) = nodes (st w) /\
     edges (st (handleDragNode id dx dy w)) = edges (st w)) /\
  (forall env e svgRect, draggingNode w = Some id ->
     nodes (st (handleNodeDrag env e svgRect w)) = nodes (st w) /\
     edges (st (handleNodeDrag env e svgRect w)) = edges (st w)) /\
  (forall env updatedNode, n_id updatedNode = id ->
     nodes (st (handleNodeUpdate env updatedNode w)) = nodes (st w) /\
     edges (st (handleNodeUpdate env updatedNode w)) = edges (st w)) /\
  (forall env e activeIsInput,
     selectedNode env = Some id -> key e = "Delete"%string ->
     nodes (st (handleKeyDown env e activeIsInput w)) = nodes (st w) /\
     edges (st (handleKeyDown env e activeIsInput w)) = edges (st w)).
Proof.
  intros w Hun.
  destruct (unknown_id_on_any_store w id Hun) as (Hmove & Htick & Hsave & Hdel).
  assert (Hedges : edges (st w) = [])
    by apply (goodStore_run evs initialWorld goodStore_initialWorld).
  repeat apply conj; try assumption.
  intros env e a Hs Hk.
  destruct (Hdel env e a Hs Hk) as (Hn & _ & _ & He).
  split; [exact Hn|].
  apply He. rewrite Hedges. intros ed [].
Qed.

Lemma unknown_id_leaves_model_unchanged_witness :
  let w := run initialWorld
             [SidebarAddNode "default" 1000 800; NodeClick "node-9"] in
  let w' := step w (WindowKeyDown {| ctrlKey := false; key := "Delete" |}
                                  false) in
  selectedNode (st w) = Some "node-9"%string /\
  nodes (st w') = nodes (st w) /\ edges (st w') = edges (st w).
Proof.
  split; [reflexivity|].
  destruct (unknown_id_leaves_model_unchanged
              [SidebarAddNode "default" 1000 800; NodeClick "node-9"]
              "node-9") as (_ & _ & _ & Hdel).
  - intros n [<- | [<- | []]]; vm_compute; discriminate.
  - apply (Hdel (st (run initialWorld
                       [SidebarAddNode "default" 1000 800; NodeClick "node-9"]))
                {| ctrlKey := false; key := "Delete" |} false);
      reflexivity.
Defined.
